(** * Monaco Archive Tool: a shallow embedding of [monaco_archive.py]

    Source: [lib/pymedphys/_experimental/streamlit/apps/monaco_archive.py].

    Modelling conventions.
    - A [pathlib.Path] is the list of its components; [joinpath] with a single
      name appends that name, [Path.name] is the last component.
    - The file system is a tree snapshot ([node]) of files and
      directories, without symbolic links, so that every entry a directory
      lists can be read; [Path.exists], [Path.glob("*")] and
      [os.path.getmtime] read it.
    - A [str] is a sequence of one-byte characters (directory names are
      ASCII); [<] on [str] is the lexicographic order of the codes.
    - Python floats (time stamps, numbers of weeks) are exact rationals
      ([Qc], canonical fractions, so that [=] is numeric equality).
    - A Python [dict] is an association list in insertion order whose keys
      are pairwise distinct; assigning to an existing key keeps its position.
    - Exceptions are values of [exn]; code that can raise lives in the monad
      [M], which also threads the Streamlit page ([app]), so that what was
      displayed before an exception stays observable.
    - [shutil.move] is an external collaborator: a call is recorded in the
      [moved] trace of [app]. *)

From Stdlib Require Import Ascii QArith Qcanon.
From stdpp Require Import base numbers option list strings gmap sorting.

#[local] Set Warnings "-clear-no-such-hyp".

(** ** Exceptions *)

Inductive exn : Type :=
| ValueError (msg : string)
| FileNotFoundError (p : list string)
| StreamlitAPIException (msg : string).

Inductive result (A : Type) : Type :=
| Ok (a : A)
| Raise (e : exn).
Arguments Ok {A} a.
Arguments Raise {A} e.

(** ** Strings: [str.split], [str.zfill] and the sort key (lines 215-217) *)

Definition tilde : ascii := "~"%char.

(** [s.split(sep)] for a one-character separator: the pieces between
    consecutive occurrences of [sep]; never the empty list. *)
Fixpoint split (sep : ascii) (s : string) : list string :=
  match s with
  | EmptyString => [EmptyString]
  | String c s' =>
      if Ascii.eqb c sep then EmptyString :: split sep s'
      else match split sep s' with
           | w :: ws => String c w :: ws
           | [] => [String c EmptyString]
           end
  end.

(** [s.count(sep)] for a one-character separator. *)
Fixpoint count (sep : ascii) (s : string) : nat :=
  match s with
  | EmptyString => 0%nat
  | String c s' => ((if Ascii.eqb c sep then 1 else 0) + count sep s')%nat
  end.

Fixpoint zeros (n : nat) : string :=
  match n with
  | O => EmptyString
  | S n' => String "0"%char (zeros n')
  end.

Definition is_sign (c : ascii) : bool :=
  Ascii.eqb c "+"%char || Ascii.eqb c "-"%char.

(** [s.zfill(width)]: the string is returned unchanged when it is already
    [width] long; otherwise zeros are put on the left, after a leading sign
    if there is one. *)
Definition zfill (width : nat) (s : string) : string :=
  if (width <=? String.length s)%nat then s
  else
    let fill := (width - String.length s)%nat in
    match s with
    | String c s' =>
        if is_sign c then String c (zeros fill +:+ s') else zeros fill +:+ s
    | EmptyString => zeros fill
    end.

(** [a, b = parts]: unpacking into exactly two names. *)
Definition unpack2 (parts : list string) : result (string * string) :=
  match parts with
  | [a; b] => Ok (a, b)
  | [] | [_] => Raise (ValueError "not enough values to unpack (expected 2)")
  | _ => Raise (ValueError "too many values to unpack (expected 2)")
  end.

Definition _patient_directory_sort_key (patient_directory_name : string)
  : result string :=
  match unpack2 (split tilde patient_directory_name) with
  | Ok (prepended_number, patient_id) =>
      Ok (patient_id +:+ "." +:+ zfill 6 prepended_number)
  | Raise e => Raise e
  end.

(** Python's [<] on [str]. *)
Definition str_lt (a b : string) : bool := String.ltb a b.

(** [<] on the results of the key function, when both are defined. *)
Definition key_lt (a b : string) : option bool :=
  match _patient_directory_sort_key a, _patient_directory_sort_key b with
  | Ok ka, Ok kb => Some (str_lt ka kb)
  | _, _ => None
  end.

(** The sequence number a directory name starts with, read as Python's
    [int] reads a string of decimal digits; [None] for any other string. *)
Definition is_digit (c : ascii) : bool :=
  (48 <=? N_of_ascii c)%N && (N_of_ascii c <=? 57)%N.

Definition digit (c : ascii) : N := (N_of_ascii c - 48)%N.

Fixpoint all_digits (s : string) : bool :=
  match s with
  | EmptyString => true
  | String c s' => is_digit c && all_digits s'
  end.

Fixpoint horner (acc : N) (s : string) : N :=
  match s with
  | EmptyString => acc
  | String c s' => horner (10 * acc + digit c)%N s'
  end.

Definition int_of_digits (s : string) : option N :=
  match s with
  | EmptyString => None
  | _ => if all_digits s then Some (horner 0 s) else None
  end.

(** ** Paths and the file-system snapshot *)

Definition path : Type := list string.

(** [p.joinpath(name)] for a single component [name]. *)
Definition joinpath (p : path) (name : string) : path := p ++ [name].

(** [p.name]: the final component (the empty string for the root). *)
Definition name (p : path) : string := List.last p EmptyString.

#[local] Set Warnings "-register-all".
Inductive node : Type :=
| File (mtime : Qc)
| Dir (mtime : Qc) (entries : list (string * node)).

Definition node_mtime (n : node) : Qc :=
  match n with
  | File t => t
  | Dir t _ => t
  end.

Fixpoint entry (k : string) (es : list (string * node)) : option node :=
  match es with
  | [] => None
  | (k', n) :: es' => if decide (k' = k) then Some n else entry k es'
  end.

Definition child (k : string) (n : node) : option node :=
  match n with
  | File _ => None
  | Dir _ es => entry k es
  end.

(** The node a path leads to, from the root of the snapshot. *)
Fixpoint resolve (fs : node) (p : path) : option node :=
  match p with
  | [] => Some fs
  | k :: p' =>
      match child k fs with
      | Some n => resolve n p'
      | None => None
      end
  end.

(** [p.exists()] *)
Definition exists_ (fs : node) (p : path) : bool :=
  match resolve fs p with
  | Some _ => true
  | None => false
  end.

(** [list(p.glob("*"))]: the entries of [p] when it is a directory, nothing
    when [p] is a file or does not exist. *)
Definition glob_star (fs : node) (p : path) : list path :=
  match resolve fs p with
  | Some (Dir _ es) => map (fun e => joinpath p e.1) es
  | _ => []
  end.

(** [os.path.getmtime(p)] *)
Definition getmtime (fs : node) (p : path) : result Qc :=
  match resolve fs p with
  | Some n => Ok (node_mtime n)
  | None => Raise (FileNotFoundError p)
  end.

(** ** The Streamlit page and the monad of the application *)

Inductive text : Type :=
| DoesNotExistAnymore (directory : path)
| FinalDestinationExists (directory : path)
| HoldingNotEmpty (holding destination : path)
| LeftBehind (from_dir : path)
| NotFoundInArchive (to_dir : path)
| AllMovesSuccessful
| MovingPlan (holding destination : path)
| PlanToMove (moving_plan : list (path * path)).

Inductive element : Type :=
| StWrite (t : text)
| StWarning (t : text)
| StError (t : text)
| StSuccess (t : text).

Record app : Type := mkApp {
  status_indicator : option string;   (* the [st.empty()] placeholder *)
  progress_bar : option Qc;           (* the [st.progress] widget *)
  page : list element;                (* what was written, oldest first *)
  moved : list (path * path)          (* calls of [shutil.move] so far *)
}.

Definition blank : app :=
  {| status_indicator := None; progress_bar := None; page := []; moved := [] |}.

Definition M (A : Type) : Type := app -> result A * app.

Definition ret {A} (a : A) : M A := fun s => (Ok a, s).

Definition bind {A B} (m : M A) (k : A -> M B) : M B :=
  fun s =>
    match m s with
    | (Ok a, s') => k a s'
    | (Raise e, s') => (Raise e, s')
    end.

Definition lift {A} (r : result A) : M A := fun s => (r, s).

Declare Scope m_scope.
Delimit Scope m_scope with M.
Notation "x <- c1 ;; c2" := (bind c1 (fun x => c2))
  (at level 100, c1 at next level, right associativity) : m_scope.
Notation "c1 ;; c2" := (bind c1 (fun _ => c2))
  (at level 100, right associativity) : m_scope.

Definition st_write (t : text) : M unit :=
  fun s => (Ok tt, mkApp (status_indicator s) (progress_bar s)
                         (page s ++ [StWrite t]) (moved s)).
Definition st_warning (t : text) : M unit :=
  fun s => (Ok tt, mkApp (status_indicator s) (progress_bar s)
                         (page s ++ [StWarning t]) (moved s)).
Definition st_error (t : text) : M unit :=
  fun s => (Ok tt, mkApp (status_indicator s) (progress_bar s)
                         (page s ++ [StError t]) (moved s)).
Definition st_success (t : text) : M unit :=
  fun s => (Ok tt, mkApp (status_indicator s) (progress_bar s)
                         (page s ++ [StSuccess t]) (moved s)).

(** [status_indicator.write(...)]: the placeholder shows the last text. *)
Definition status_write (t : string) : M unit :=
  fun s => (Ok tt, mkApp (Some t) (progress_bar s) (page s) (moved s)).

(** [progress_bar.progress(v)]: a float outside [0.0, 1.0] is refused. *)
Definition progress (v : Qc) : M unit :=
  fun s =>
    if decide (0 ≤ v ∧ v ≤ 1)%Qc
    then (Ok tt, mkApp (status_indicator s) (Some v) (page s) (moved s))
    else (Raise (StreamlitAPIException "Progress Value has invalid value"), s).

(** [shutil.move(src, dst)], recorded. *)
Definition shutil_move (from_dir to_dir : path) : M unit :=
  fun s => (Ok tt, mkApp (status_indicator s) (progress_bar s) (page s)
                         (moved s ++ [(from_dir, to_dir)])).

(** [for x in xs: body(x)] *)
Fixpoint for_each {A} (xs : list A) (body : A -> M unit) : M unit :=
  match xs with
  | [] => ret tt
  | x :: xs' => (body x ;; for_each xs' body)%M
  end.

(** [[f(x) for x in xs]] for an [f] that can raise. *)
Fixpoint traverse {A B} (f : A -> result B) (xs : list A) : result (list B) :=
  match xs with
  | [] => Ok []
  | x :: xs' =>
      match f x with
      | Ok b => match traverse f xs' with
                | Ok bs => Ok (b :: bs)
                | Raise e => Raise e
                end
      | Raise e => Raise e
      end
  end.

(** ** Python dictionaries, in insertion order *)

Section Dict.
Context {K V : Type} `{EqDecision K}.

Definition dict : Type := list (K * V).

(** [m[k]] when present *)
Fixpoint dict_get (k : K) (m : dict) : option V :=
  match m with
  | [] => None
  | (k', v') :: m' => if decide (k' = k) then Some v' else dict_get k m'
  end.

(** [m[k] = v]: an existing key keeps its place, a new key goes last. *)
Fixpoint dict_set (m : dict) (k : K) (v : V) : dict :=
  match m with
  | [] => [(k, v)]
  | (k', v') :: m' =>
      if decide (k' = k) then (k', v) :: m' else (k', v') :: dict_set m' k v
  end.

(** [list(m.keys())] and [list(m.items())] *)
Definition dict_keys (m : dict) : list K := m.*1.
Definition dict_items (m : dict) : list (K * V) := m.

(** The invariant of a dictionary: no key occurs twice. *)
Definition dict_wf (m : dict) : Prop := NoDup (dict_keys m).
End Dict.
Arguments dict K V : clear implicits.

(** ** Staleness computation (lines 225-248) *)

(** [60 * 60 * 24 * 7] *)
Definition seconds_per_week : Qc := Qc_of_Z (60 * 60 * 24 * 7).

(** [np.min] of a one-dimensional array. *)
Definition qc_min (a b : Qc) : Qc := if decide (b < a)%Qc then b else a.

Definition np_min (xs : list Qc) : result Qc :=
  match xs with
  | [] => Raise (ValueError
      "zero-size array to reduction operation minimum which has no identity")
  | x :: xs' => Ok (foldl qc_min x xs')
  end.

(** Lines 236-238: the direct children, then the children of [plan]. *)
Definition paths_to_check (fs : node) (current_patient_directory : path)
  : list path :=
  glob_star fs current_patient_directory
  ++ glob_star fs (joinpath current_patient_directory "plan").

(** Lines 239-242, for one directory. *)
Definition minimum_number_of_weeks_ago (fs : node) (now : Qc)
    (current_patient_directory : path) : result Qc :=
  match traverse (getmtime fs) (paths_to_check fs current_patient_directory) with
  | Ok modified_times =>
      let number_of_weeks_ago :=
        map (fun t => ((now - t) / seconds_per_week)%Qc) modified_times in
      np_min number_of_weeks_ago
  | Raise e => Raise e
  end.

(** [(i + 1) / len(patient_directories)] *)
Definition fraction (i n : nat) : Qc :=
  (Qc_of_Z (Z.of_nat i + 1) / Qc_of_Z (Z.of_nat n))%Qc.

(** The loop of lines 233-246, from index [i] on. *)
Fixpoint weeks_loop (fs : node) (now : Qc) (n i : nat)
    (patient_directories : list path) (weeks_sinces_touched : dict path Qc)
  : M (dict path Qc) :=
  match patient_directories with
  | [] => ret weeks_sinces_touched
  | current_patient_directory :: rest =>
      (status_write (name current_patient_directory) ;;
       minimum <- lift (minimum_number_of_weeks_ago fs now
                          current_patient_directory) ;;
       let weeks_sinces_touched' :=
         dict_set weeks_sinces_touched current_patient_directory minimum in
       progress (fraction i n) ;;
       weeks_loop fs now n (S i) rest weeks_sinces_touched')%M
  end.

(** Lines 226-227: [st.empty()] and [st.progress(0)]. *)
Definition new_widgets : M unit :=
  fun s => (Ok tt, mkApp None (Some 0%Qc) (page s) (moved s)).

(** [now] is the value of [time.time()] at line 229. *)
Definition _weeks_since_touched (fs : node) (now : Qc)
    (patient_directories : list path) : M (dict path Qc) :=
  (new_widgets ;;
   weeks_loop fs now (length patient_directories) 0 patient_directories [])%M.

(** ** Archival selection (lines 251-258) *)

Definition _determine_directories_to_archive
    (weeks_sinces_touched : dict path Qc) (weeks_to_keep : Qc) : list path :=
  foldl (fun directories_to_archive '(directory, weeks) =>
           if decide (weeks_to_keep < weeks)%Qc   (* weeks > weeks_to_keep *)
           then directories_to_archive ++ [directory]
           else directories_to_archive)
        [] (dict_items weeks_sinces_touched).

(** [@st.cache]: results are kept per argument value and reused. *)
Definition cache : Type := list ((dict path Qc * Qc) * list path).

Definition cached_determine (c : cache)
    (weeks_sinces_touched : dict path Qc) (weeks_to_keep : Qc)
  : list path * cache :=
  match dict_get (weeks_sinces_touched, weeks_to_keep) c with
  | Some hit => (hit, c)
  | None =>
      let value :=
        _determine_directories_to_archive weeks_sinces_touched weeks_to_keep in
      (value, dict_set c (weeks_sinces_touched, weeks_to_keep) value)
  end.

(** The caches that calls of the decorated function can produce. *)
Inductive cache_reachable : cache -> Prop :=
| cache_empty : cache_reachable []
| cache_call c m t :
    cache_reachable c -> cache_reachable (cached_determine c m t).2.

(** ** The move batch and its verification in [main] (lines 133-212) *)

(** Lines 145-149. The assignment of line 149 is in the loop body, after
    the [if]. *)
Fixpoint check_sources (fs : node) (directories_to_archive : list path)
    (allow_move_button : bool) : M bool :=
  match directories_to_archive with
  | [] => ret allow_move_button
  | directory :: rest =>
      ((if negb (exists_ fs directory)
        then st_warning (DoesNotExistAnymore directory)
        else ret tt) ;;
       let allow_move_button := false in
       check_sources fs rest allow_move_button)%M
  end.

(** Lines 151-157. The assignment of line 157 is in the loop body, after
    the [if]. *)
Fixpoint check_final_locations (fs : node) (testing_final_locations : list path)
    (allow_move_button : bool) : M bool :=
  match testing_final_locations with
  | [] => ret allow_move_button
  | directory :: rest =>
      ((if exists_ fs directory
        then st_warning (FinalDestinationExists directory)
        else ret tt) ;;
       let allow_move_button := false in
       check_final_locations fs rest allow_move_button)%M
  end.

(** Lines 184-192. *)
Definition check_holding (fs : node) (holding destination : path)
    (allow_move_button : bool) : M bool :=
  let holding_directory_contents := glob_star fs holding in
  if decide (length holding_directory_contents ≠ 0%nat)
  then (st_warning (HoldingNotEmpty holding destination) ;; ret false)%M
  else ret allow_move_button.

(** Lines 133-197, without the listing of line 137; [undergo_move] tells
    whether the button "Undergo move" is pressed in this run (it is only
    drawn when the move is allowed). The result is the final value of
    [allow_move_button]. *)
Definition move_section (fs : node) (holding destination : path)
    (undergo_move : bool) (directories_to_archive : list path) : M bool :=
  let directory_names_to_archive := map name directories_to_archive in
  let testing_final_locations :=
    map (joinpath destination) directory_names_to_archive in
  let allow_move_button := true in
  (allow_move_button <- check_sources fs directories_to_archive
                          allow_move_button ;;
   allow_move_button <- check_final_locations fs testing_final_locations
                          allow_move_button ;;
   let intermediate_holding_locations :=
     map (joinpath holding) directory_names_to_archive in
   st_write (MovingPlan holding destination) ;;
   let moving_plan :=
     zip directories_to_archive intermediate_holding_locations in
   st_write (PlanToMove moving_plan) ;;
   allow_move_button <- check_holding fs holding destination
                          allow_move_button ;;
   (if allow_move_button && undergo_move
    then for_each moving_plan (fun '(from_dir, to_dir) =>
                                 shutil_move from_dir to_dir)
    else ret tt) ;;
   ret allow_move_button)%M.

(** The loop of lines 202-209, with its two accumulators. *)
Fixpoint test_loop (fs : node) (pairs : list (path * path))
    (directories_left_behind directories_not_in_archive : list path)
  : M (list path * list path) :=
  match pairs with
  | [] => ret (directories_left_behind, directories_not_in_archive)
  | (from_dir, to_dir) :: rest =>
      (directories_left_behind <-
         (if exists_ fs from_dir
          then (st_error (LeftBehind from_dir) ;;
                ret (directories_left_behind ++ [from_dir]))
          else ret directories_left_behind) ;;
       directories_not_in_archive <-
         (if negb (exists_ fs to_dir)
          then (st_error (NotFoundInArchive to_dir) ;;
                ret (directories_not_in_archive ++ [to_dir]))
          else ret directories_not_in_archive) ;;
       test_loop fs rest directories_left_behind directories_not_in_archive)%M
  end.

(** Lines 199-212; [test_moves] tells whether the button "Test moves" is
    pressed. The result is the two lists of lines 200-201. *)
Definition test_section (fs : node) (destination : path) (test_moves : bool)
    (directories_to_archive : list path) : M (list path * list path) :=
  let testing_final_locations :=
    map (joinpath destination) (map name directories_to_archive) in
  if test_moves then
    (found <- test_loop fs (zip directories_to_archive testing_final_locations)
                [] [] ;;
     let '(directories_left_behind, directories_not_in_archive) := found in
     (if bool_decide (directories_left_behind = [])
         && bool_decide (directories_not_in_archive = [])
      then st_success AllMovesSuccessful
      else ret tt) ;;
     ret (directories_left_behind, directories_not_in_archive))%M
  else ret ([], []).

(** The three preconditions of a move batch, read off the warnings of
    lines 146-147, 152-155 and 185-190. *)
Definition sources_exist (fs : node) (directories_to_archive : list path) : Prop :=
  ∀ d, d ∈ directories_to_archive → exists_ fs d = true.
Definition destinations_free (fs : node) (destination : path)
    (directories_to_archive : list path) : Prop :=
  ∀ d, d ∈ directories_to_archive →
       exists_ fs (joinpath destination (name d)) = false.
Definition holding_empty (fs : node) (holding : path) : Prop :=
  glob_star fs holding = [].

(** [max(weeks_sinces_touched.values())], the largest recorded staleness;
    [None] for the empty mapping. *)
Definition qc_max (a b : Qc) : Qc := if decide (a < b)%Qc then b else a.

Definition max_staleness (weeks_sinces_touched : dict path Qc) : option Qc :=
  match weeks_sinces_touched.*2 with
  | [] => None
  | w :: ws => Some (foldl qc_max w ws)
  end.

(** The rule of the selection, on an item of the mapping. *)
Definition stale (weeks_to_keep : Qc) (item : path * Qc) : Prop :=
  (weeks_to_keep < item.2)%Qc.

#[global] Instance stale_dec weeks_to_keep item :
  Decision (stale weeks_to_keep item) :=
  Qc_lt_dec weeks_to_keep item.2.

(** Every entry of the cache holds what the function computes. *)
Definition cache_sound (c : cache) : Prop :=
  ∀ m T hit, dict_get (m, T) c = Some hit →
             hit = _determine_directories_to_archive m T.

(** ** Vocabulary of the move and verification claims *)

(** The warnings of the loop of lines 145-149. *)
Definition source_warnings (fs : node) (directories : list path)
  : list element :=
  map (fun d => StWarning (DoesNotExistAnymore d))
      (filter (fun d => exists_ fs d = false) directories).

(** The warnings of the loop of lines 151-157. *)
Definition destination_warnings (fs : node) (locations : list path)
  : list element :=
  map (fun d => StWarning (FinalDestinationExists d))
      (filter (fun d => exists_ fs d = true) locations).

(** The errors of the loop of lines 202-209, pair by pair. *)
Definition test_errors (fs : node) (pairs : list (path * path))
  : list element :=
  pairs ≫= fun '(from_dir, to_dir) =>
    (if exists_ fs from_dir then [StError (LeftBehind from_dir)] else [])
    ++ (if exists_ fs to_dir then [] else [StError (NotFoundInArchive to_dir)]).

(** The final-archive location of a selected directory. *)
Definition final_location (destination d : path) : path :=
  joinpath destination (name d).

(** An item of the verification passes when its source is gone and its
    final-archive location is there. *)
Definition item_passes (fs : node) (destination d : path) : Prop :=
  exists_ fs d = false ∧ exists_ fs (final_location destination d) = true.

(** The snapshot after the sample clinic has been archived: directory
    [005~ABC] is in the archive and no longer in the clinic, directory
    [006~ABC] is still in the clinic. *)
Definition archived_fs : node :=
  Dir 0%Qc
    [ ("focal", Dir 0%Qc
        [ ("clinic", Dir 0%Qc
            [ ("006~ABC", Dir 0%Qc [ ("demographic.006", File 0%Qc) ]) ]);
          ("holding", Dir 0%Qc []) ]);
      ("archive", Dir 0%Qc
        [ ("005~ABC", Dir 0%Qc [ ("demographic.005", File 0%Qc) ]) ]) ].

Definition sample_holding : path := ["focal"; "holding"].
Definition sample_destination : path := ["archive"].

(** ** Vocabulary of the staleness claims *)

(** The modification time of a path of the snapshot (0 for a path that is
    not there; every gathered path is there, see [glob_star_resolve]). *)
Definition modified_time (fs : node) (p : path) : Qc :=
  match resolve fs p with
  | Some n => node_mtime n
  | None => 0%Qc
  end.

(** [(now - modified_time) / (7 * 86400)] for each gathered path. *)
Definition weeks_since (fs : node) (now : Qc) (d : path) : list Qc :=
  map (fun p => ((now - modified_time fs p) / Qc_of_Z (7 * 86400))%Qc)
      (paths_to_check fs d).

Definition is_minimum (v : Qc) (xs : list Qc) : Prop :=
  v ∈ xs ∧ ∀ x, x ∈ xs → (v ≤ x)%Qc.

(** A directory with at least one gathered path. *)
Definition has_data (fs : node) (d : path) : Prop := paths_to_check fs d ≠ [].

(** The exception of [np.min] on an empty array. *)
Definition zero_size : exn :=
  ValueError
    "zero-size array to reduction operation minimum which has no identity".

(** The value line 244 records for a directory that has data. *)
Definition staleness (fs : node) (now : Qc) (d : path) : Qc :=
  match minimum_number_of_weeks_ago fs now d with
  | Ok v => v
  | Raise _ => 0%Qc
  end.

(** The mapping after the assignments of line 244 for [ds], in order. *)
Definition record_all (fs : node) (now : Qc) (ds : list path)
    (acc : dict path Qc) : dict path Qc :=
  foldl (fun acc d => dict_set acc d (staleness fs now d)) acc ds.

(** ** Sample data *)

Definition sample_staleness : dict path Qc :=
  [ (["focal"; "clinic"; "000017~LK4"], Qc_of_Z 60);
    (["focal"; "clinic"; "000018~LK4"], Qc_of_Z 52);
    (["focal"; "clinic"; "000004~QT9"], Q2Qc (209 # 2));
    (["focal"; "clinic"; "000031~AB1"], Q2Qc (7 # 3)) ].

Definition sample_now : Qc := Qc_of_Z 1700000000.

(** The time stamp [k] weeks before [sample_now]. *)
Definition weeks_ago (k : Qc) : Qc := (sample_now - k * Qc_of_Z 604800)%Qc.

Definition sample_clinic : path := ["focal"; "clinic"].

(** A clinic with five patient directories: one whose items are 1, 3 and
    10 weeks old, the 3 weeks old one being an empty [plan]; one without
    [plan]; one whose newest item is inside [plan]; one that has been
    emptied; one with a file stamped one week ahead of [sample_now]. *)
Definition sample_fs : node :=
  Dir (weeks_ago 0)
    [ ("focal", Dir (weeks_ago 0)
        [ ("clinic", Dir (weeks_ago 0)
            [ ("000017~LK4", Dir (weeks_ago 1)
                [ ("demographic.017", File (weeks_ago 1));
                  ("plan", Dir (weeks_ago (Qc_of_Z 3)) []);
                  ("images", File (weeks_ago (Qc_of_Z 10))) ]);
              ("000018~LK4", Dir (weeks_ago (Qc_of_Z 60))
                [ ("demographic.018", File (weeks_ago (Qc_of_Z 60))) ]);
              ("000004~QT9", Dir (weeks_ago (Qc_of_Z 110))
                [ ("demographic.004", File (weeks_ago (Qc_of_Z 120)));
                  ("plan", Dir (weeks_ago (Qc_of_Z 110))
                     [ ("p1", File (weeks_ago (Q2Qc (209 # 2)))) ]) ]);
              ("000031~AB1", Dir (weeks_ago (Qc_of_Z 2)) []);
              ("000040~FU2", Dir (weeks_ago 1)
                [ ("demographic.040", File (weeks_ago (Qc_of_Z (-1)))) ]) ]);
          ("holding", Dir (weeks_ago 0) []) ]);
      ("archive", Dir (weeks_ago 0) []) ].

Definition dir_LK4_17 : path := joinpath sample_clinic "000017~LK4".
Definition dir_LK4_18 : path := joinpath sample_clinic "000018~LK4".
Definition dir_QT9 : path := joinpath sample_clinic "000004~QT9".
Definition dir_AB1 : path := joinpath sample_clinic "000031~AB1".
Definition dir_FU2 : path := joinpath sample_clinic "000040~FU2".

(** Evaluation of closed terms with rationals in them: canonical fractions
    are equal when their numerators and denominators are. *)
Ltac qc_compute :=
  vm_compute;
  repeat first [ reflexivity | apply Qc_is_canon; reflexivity | f_equal ].

(** Equality of exceptions and results is decidable. *)
#[global] Instance exn_eq_dec : EqDecision exn.
Proof. solve_decision. Defined.

#[global] Instance result_eq_dec {A} `{EqDecision A} : EqDecision (result A).
Proof. solve_decision. Defined.

(** ** Directory discovery (lines 61-66) *)

(** [p.is_dir()] *)
Definition is_dir (fs : node) (p : path) : bool :=
  match resolve fs p with
  | Some (Dir _ _) => true
  | _ => false
  end.

(** [p.parent] *)
Definition parent (p : path) : path := removelast p.

(** [fnmatch] of a name against one part of a glob pattern, for parts made
    of literal characters, [*] and [?] (no bracket expression), with case
    kept apart as on POSIX. *)
Fixpoint fnmatch (pat s : string) : bool :=
  match pat with
  | EmptyString =>
      match s with
      | EmptyString => true
      | String _ _ => false
      end
  | String c pat' =>
      if Ascii.eqb c "*"%char then
        (fix star (s : string) : bool :=
           fnmatch pat' s
           || match s with
              | EmptyString => false
              | String _ s' => star s'
              end) s
      else
        match s with
        | EmptyString => false
        | String d s' =>
            (Ascii.eqb c "?"%char || Ascii.eqb c d) && fnmatch pat' s'
        end
  end.

(** The chain of selectors of [pathlib] for a pattern whose parts all have a
    wildcard: each part is matched against the entries of the directories
    reached so far; a part that is not the last one only selects
    directories. *)
Fixpoint select (fs : node) (parts : list string) (p : path) : list path :=
  match parts with
  | [] => [p]
  | pat :: child_parts =>
      let dironly := bool_decide (child_parts ≠ []) in
      filter (fun q => (dironly = true → is_dir fs q = true)
                       ∧ fnmatch pat (name q) = true)
             (glob_star fs p)
      ≫= select fs child_parts
  end.

(** [list(p.glob(pattern))] for such a pattern. *)
Definition glob (fs : node) (p : path) (pattern : string) : list path :=
  if is_dir fs p then select fs (split "/"%char pattern) p else [].

(** Lines 63-66: the value stored in [session_state.patient_directories]
    when "Find Patient Directories" is pressed. *)
Definition find_patient_directories (fs : node) (clinic : path) : list path :=
  map parent (glob fs clinic "*~*/demographic.*").

(** ** The listing of all patient directories (lines 72-81, 220-222) *)

(** The insertion step of a stable sort that, like [list.sort], only asks
    whether one key is less than another: [x] goes in front of the first
    element whose key is not less than its own. *)
Fixpoint insert_by {K A} (lt : K → K → bool) (x : K * A) (l : list (K * A))
  : list (K * A) :=
  match l with
  | [] => [x]
  | y :: l' => if lt y.1 x.1 then y :: insert_by lt x l' else x :: y :: l'
  end.

(** The stable sort of decorated items; elements of equal keys keep their
    order, which determines the result of any stable sort. *)
Fixpoint sort_by {K A} (lt : K → K → bool) (l : list (K * A)) : list (K * A) :=
  match l with
  | [] => []
  | x :: l' => insert_by lt x (sort_by lt l')
  end.

(** Line 78-80: [sorted(directory_names, key=_patient_directory_sort_key)];
    the keys are computed first, one per name in order, then the names are
    sorted on them. *)
Definition id_sorted_directory_names (directory_names : list string)
  : result (list string) :=
  match traverse _patient_directory_sort_key directory_names with
  | Ok keys => Ok (sort_by str_lt (zip keys directory_names)).*2
  | Raise e => Raise e
  end.

Definition newline : string := String (ascii_of_nat 10) EmptyString.

(** Lines 220-222: the markdown that [_print_list_of_ids] hands to
    [st.write]; [sep.join(ids)] is [String.concat]. *)
Definition _print_list_of_ids (ids : list string) : string :=
  let markdown := String.concat ("`" +:+ newline +:+ "* `") ids in
  "* `" +:+ markdown +:+ "`".

(** One bullet of the listing. *)
Definition bullet (id : string) : string := "* `" +:+ id +:+ "`".

(** ** The listing by weeks since touched (lines 95-118, 137) *)

(** Lines 95-96; [None] stands for the [KeyError] of the lookup. *)
Definition _get_weeks (clinic : path) (weeks_sinces_touched : dict path Qc)
    (patient_directory : string) : option Qc :=
  dict_get (joinpath clinic patient_directory) weeks_sinces_touched.

(** [a > b] on weeks: the order of [sorted(..., reverse=True)], which keeps
    items of equal keys in the order they came in. *)
Definition weeks_gt (a b : Qc) : bool := bool_decide (b < a)%Qc.

(** Lines 105-115: the items of the list that is written, in order, each
    with the number of weeks its line shows; [None] stands for the
    [KeyError] of [_get_weeks]. The keys are looked up first, one per
    name. *)
Definition _display_directory_names (clinic : path)
    (weeks_sinces_touched : dict path Qc) (directory_names : list string)
  : option (list (string * Qc)) :=
  keys ← mapM (_get_weeks clinic weeks_sinces_touched) directory_names;
  let directory_names_by_weeks_since_touched :=
    (sort_by weeks_gt (zip keys directory_names)).*2 in
  mapM (fun directory =>
          weeks ← _get_weeks clinic weeks_sinces_touched directory;
          Some (directory, weeks))
       directory_names_by_weeks_since_touched.

(** ** The sites of the configuration (lines 37-50) *)

(** A value of the configuration, as the TOML file gives it; scalars other
    than strings and integers are left out. *)
Inductive toml : Type :=
| TString (s : string)
| TInteger (z : Z)
| TTable (entries : list (string * toml))
| TArray (items : list toml).

(** The two exceptions of a subscript. *)
Inductive lookup_exn : Type := KeyError | TypeError.

Inductive outcome (A : Type) : Type :=
| Returns (a : A)
| Raises (e : lookup_exn).
Arguments Returns {A} a.
Arguments Raises {A} e.

(** [v[k]] for a string [k]: only a table can be asked for a key. *)
Definition index (v : toml) (k : string) : outcome toml :=
  match v with
  | TTable entries =>
      match dict_get k entries with
      | Some x => Returns x
      | None => Raises KeyError
      end
  | TString _ | TInteger _ | TArray _ => Raises TypeError
  end.

(** [site_config["monaco"][k]] *)
Definition monaco_entry (site_config : toml) (k : string) : outcome toml :=
  match index site_config "monaco" with
  | Returns monaco => index monaco k
  | Raises e => Raises e
  end.

(** The keys of [site_directory_map]: the values that can be hashed. *)
Inductive site_name : Type :=
| NameString (s : string)
| NameInteger (z : Z).

#[global] Instance site_name_eq_dec : EqDecision site_name.
Proof. solve_decision. Defined.

Definition hashable (v : toml) : outcome site_name :=
  match v with
  | TString s => Returns (NameString s)
  | TInteger z => Returns (NameInteger z)
  | TTable _ | TArray _ => Raises TypeError
  end.

Record directories : Type := mkDirectories {
  dir_focal_data : toml;
  dir_clinic : toml;
  dir_holding : toml;
  dir_destination : toml
}.

(** Lines 43-48: the dictionary display, entry by entry. *)
Definition monaco_directories (site_config : toml) : outcome directories :=
  match monaco_entry site_config "focaldata" with
  | Raises e => Raises e
  | Returns focal_data =>
  match monaco_entry site_config "clinic" with
  | Raises e => Raises e
  | Returns clinic =>
  match monaco_entry site_config "archive_holding" with
  | Raises e => Raises e
  | Returns holding =>
  match monaco_entry site_config "archive_destination" with
  | Raises e => Raises e
  | Returns destination =>
      Returns (mkDirectories focal_data clinic holding destination)
  end end end end.

(** Lines 41-50, one turn of the loop: the name is read outside the [try];
    inside it a [KeyError] skips the site, any other exception leaves the
    loop. *)
Definition add_site (site_directory_map : dict site_name directories)
    (site_config : toml) : outcome (dict site_name directories) :=
  match index site_config "name" with
  | Raises e => Raises e
  | Returns site =>
      match monaco_directories site_config with
      | Raises KeyError => Returns site_directory_map
      | Raises TypeError => Raises TypeError
      | Returns dirs =>
          match hashable site with
          | Raises e => Raises e
          | Returns key => Returns (dict_set site_directory_map key dirs)
          end
      end
  end.

Fixpoint site_loop (site_configs : list toml)
    (site_directory_map : dict site_name directories)
  : outcome (dict site_name directories) :=
  match site_configs with
  | [] => Returns site_directory_map
  | site_config :: rest =>
      match add_site site_directory_map site_config with
      | Returns site_directory_map' => site_loop rest site_directory_map'
      | Raises e => Raises e
      end
  end.

(** Lines 39-50, for [config["site"]] a list. *)
Definition site_directory_map (site_configs : list toml)
  : outcome (dict site_name directories) :=
  site_loop site_configs [].

(** The name of a site whose configuration is a table with a string or an
    integer as ["name"]. *)
Definition site_name_of (site_config : toml) : option site_name :=
  match site_config with
  | TTable entries =>
      match dict_get "name" entries with
      | Some (TString s) => Some (NameString s)
      | Some (TInteger z) => Some (NameInteger z)
      | _ => None
      end
  | _ => None
  end.

(** The four directories of a site whose ["monaco"] table has them all. *)
Definition complete (site_config : toml) : option directories :=
  match site_config with
  | TTable entries =>
      match dict_get "monaco" entries with
      | Some (TTable monaco) =>
          focal_data ← dict_get "focaldata" monaco;
          clinic ← dict_get "clinic" monaco;
          holding ← dict_get "archive_holding" monaco;
          destination ← dict_get "archive_destination" monaco;
          Some (mkDirectories focal_data clinic holding destination)
      | _ => None
      end
  | _ => None
  end.

(** A site of the expected shape: a table with a name, whose ["monaco"]
    entry, when there is one, is a table. *)
Definition well_shaped (site_config : toml) : Prop :=
  is_Some (site_name_of site_config)
  ∧ match site_config with
    | TTable entries =>
        match dict_get "monaco" entries with
        | Some (TTable _) | None => True
        | Some _ => False
        end
    | _ => False
    end.

Definition sample_sites : list toml :=
  [ TTable [ ("name", TString "rccc");
             ("monaco", TTable [ ("focaldata", TString "//monaco/focal");
                                 ("clinic", TString "clinic");
                                 ("archive_holding", TString "holding");
                                 ("archive_destination", TString "//nas/archive") ]) ];
    TTable [ ("name", TString "nbcc");
             ("monaco", TTable [ ("focaldata", TString "//nb/focal");
                                 ("clinic", TString "clinic") ]) ];
    TTable [ ("name", TString "sash") ] ].

(** [(now - modified_time) / (7 * 86400)] for each path of a list. *)
Definition weeks_of (fs : node) (now : Qc) (paths : list path) : list Qc :=
  map (fun p => ((now - modified_time fs p) / Qc_of_Z (7 * 86400))%Qc) paths.

(** * Properties *)

(** ** The sort key *)

Section SortKey.

Lemma split_not_nil sep s : split sep s ≠ [].
Proof.
  destruct s as [|c s]; simpl; [done|].
  destruct (Ascii.eqb c sep); [done|]. by destruct (split sep s).
Qed.

Lemma length_split sep s : length (split sep s) = S (count sep s).
Proof.
  induction s as [|c s IH]; simpl; [done|].
  destruct (Ascii.eqb c sep); simpl; [by rewrite IH|].
  pose proof (split_not_nil sep s).
  destruct (split sep s); [done|]. simpl in *. lia.
Qed.

Lemma split_no_sep sep s : count sep s = 0%nat → split sep s = [s].
Proof.
  induction s as [|c s IH]; simpl; [done|].
  destruct (Ascii.eqb c sep); simpl; [done|].
  intros H. by rewrite IH.
Qed.

Lemma split_app sep a b :
  count sep a = 0%nat →
  split sep (a +:+ String sep b) = a :: split sep b.
Proof.
  induction a as [|c a IH]; simpl.
  - intros _. by rewrite Ascii.eqb_refl.
  - destruct (Ascii.eqb c sep); simpl; [done|].
    intros H. by rewrite IH.
Qed.

Lemma unpack2_ok parts :
  (∃ ab, unpack2 parts = Ok ab) ↔ length parts = 2%nat.
Proof.
  destruct parts as [|a [|b [|c parts]]]; simpl; split;
    try done; try (intros [? ?]; done); eauto.
Qed.

Lemma sort_key_ok_iff s :
  (∃ k, _patient_directory_sort_key s = Ok k) ↔ count tilde s = 1%nat.
Proof.
  unfold _patient_directory_sort_key.
  pose proof (length_split tilde s) as Hlen.
  pose proof (unpack2_ok (split tilde s)) as [H1 H2].
  split.
  - intros [k Hk]. destruct (unpack2 (split tilde s)) as [[a b]|e] eqn:E; [|done].
    assert (length (split tilde s) = 2%nat) by eauto. lia.
  - intros Hc. destruct H2 as [[a b] ->]; [lia|]. eauto.
Qed.

Lemma sort_key_total s :
  (∃ k, _patient_directory_sort_key s = Ok k)
  ∨ (∃ msg, _patient_directory_sort_key s = Raise (ValueError msg)).
Proof.
  unfold _patient_directory_sort_key, unpack2.
  destruct (split tilde s) as [|a [|b [|c parts]]]; eauto.
Qed.

Lemma sort_key_well_formed sequence patient_id :
  count tilde sequence = 0%nat → count tilde patient_id = 0%nat →
  _patient_directory_sort_key (sequence +:+ String tilde patient_id)
  = Ok (patient_id +:+ "." +:+ zfill 6 sequence).
Proof.
  intros Hs Hp. unfold _patient_directory_sort_key.
  by rewrite split_app, (split_no_sep _ patient_id).
Qed.

End SortKey.

Section SortKeyOrder.

Lemma ascii_compare_refl c : Ascii.compare c c = Eq.
Proof. unfold Ascii.compare. apply N.compare_refl. Qed.

Lemma compare_app_prefix p a b :
  String.compare (p +:+ a) (p +:+ b) = String.compare a b.
Proof. induction p as [|c p IH]; simpl; [done|]. by rewrite ascii_compare_refl. Qed.

Lemma length_zeros n : String.length (zeros n) = n.
Proof. induction n; simpl; congruence. Qed.

Lemma all_digits_zeros n : all_digits (zeros n) = true.
Proof. induction n; simpl; [done|]. by rewrite IHn. Qed.

Lemma all_digits_app a b :
  all_digits (a +:+ b) = all_digits a && all_digits b.
Proof.
  induction a as [|c a IH]; simpl; [done|]. rewrite IH. by rewrite andb_assoc.
Qed.

Lemma length_append a b :
  String.length (a +:+ b) = (String.length a + String.length b)%nat.
Proof. induction a as [|c a IH]; simpl; [done|]. by rewrite IH. Qed.

Lemma horner_zeros n acc s :
  horner acc (zeros n +:+ s) = horner (10 ^ N.of_nat n * acc)%N s.
Proof.
  revert acc. induction n as [|n IH]; intros acc.
  - simpl. f_equal. lia.
  - simpl. rewrite IH. f_equal.
    unfold digit. simpl N_of_ascii.
    rewrite Nat2N.inj_succ, N.pow_succ_r'. lia.
Qed.

Lemma horner_bounds acc s :
  all_digits s = true →
  (acc * 10 ^ N.of_nat (String.length s) ≤ horner acc s
   < (acc + 1) * 10 ^ N.of_nat (String.length s))%N.
Proof.
  revert acc. induction s as [|c s IH]; intros acc Hd.
  - simpl. lia.
  - cbn [all_digits] in Hd. apply andb_prop in Hd as [Hc Hs].
    cbn [horner String.length]. specialize (IH (10 * acc + digit c)%N Hs).
    rewrite Nat2N.inj_succ, N.pow_succ_r'.
    unfold is_digit in Hc. apply andb_prop in Hc as [H1 H2].
    apply N.leb_le in H1, H2. unfold digit in *.
    set (P := (10 ^ N.of_nat (String.length s))%N) in *.
    nia.
Qed.

(** On digit strings of one length the order of [str] is the order of
    the numbers. *)
Lemma compare_digits a b acc :
  all_digits a = true → all_digits b = true →
  String.length a = String.length b →
  String.compare a b = (horner acc a ?= horner acc b)%N.
Proof.
  revert b acc. induction a as [|c a IH]; intros [|d b] acc Ha Hb Hlen;
    try discriminate.
  - simpl. by rewrite N.compare_refl.
  - cbn [all_digits] in Ha, Hb.
    apply andb_prop in Ha as [Hc Ha], Hb as [Hd Hb].
    cbn [String.compare horner]. injection Hlen as Hlen.
    unfold Ascii.compare.
    destruct (N.compare_spec (N_of_ascii c) (N_of_ascii d)) as [E|L|G].
    + assert (c = d) as ->.
      { rewrite <-(ascii_N_embedding c), <-(ascii_N_embedding d). by rewrite E. }
      by apply IH.
    + symmetry. apply N.compare_lt_iff.
      pose proof (horner_bounds (10 * acc + digit c) a Ha) as Hx.
      pose proof (horner_bounds (10 * acc + digit d) b Hb) as Hy.
      rewrite Hlen in Hx. unfold is_digit in Hc, Hd.
      apply andb_prop in Hc as [Hc1 Hc2], Hd as [Hd1 Hd2].
      apply N.leb_le in Hc1, Hc2, Hd1, Hd2. unfold digit in *.
      set (P := (10 ^ N.of_nat (String.length b))%N) in *.
      nia.
    + symmetry. apply N.compare_gt_iff.
      pose proof (horner_bounds (10 * acc + digit c) a Ha) as Hx.
      pose proof (horner_bounds (10 * acc + digit d) b Hb) as Hy.
      rewrite Hlen in Hx. unfold is_digit in Hc, Hd.
      apply andb_prop in Hc as [Hc1 Hc2], Hd as [Hd1 Hd2].
      apply N.leb_le in Hc1, Hc2, Hd1, Hd2. unfold digit in *.
      set (P := (10 ^ N.of_nat (String.length b))%N) in *.
      nia.
Qed.

End SortKeyOrder.

Section SortKeyClaims.

Lemma digit_not_sign c : is_digit c = true → is_sign c = false.
Proof. destruct c as [[] [] [] [] [] [] [] []]; done. Qed.

Lemma digit_not_tilde c : is_digit c = true → Ascii.eqb c tilde = false.
Proof. destruct c as [[] [] [] [] [] [] [] []]; done. Qed.

Lemma all_digits_no_tilde s : all_digits s = true → count tilde s = 0%nat.
Proof.
  induction s as [|c s IH]; simpl; [done|].
  intros [Hc Hs]%andb_prop. rewrite (digit_not_tilde c Hc). simpl. auto.
Qed.

Lemma zfill_digits s :
  all_digits s = true → (String.length s ≤ 6)%nat →
  zfill 6 s = zeros (6 - String.length s) +:+ s.
Proof.
  intros Hd Hlen. unfold zfill.
  destruct (6 <=? String.length s)%nat eqn:E.
  - apply Nat.leb_le in E. by replace (6 - String.length s)%nat with 0%nat by lia.
  - destruct s as [|c s]; [done|].
    cbn [all_digits] in Hd. apply andb_prop in Hd as [Hc _].
    by rewrite (digit_not_sign c Hc).
Qed.

Lemma length_zfill_digits s :
  all_digits s = true → (String.length s ≤ 6)%nat →
  String.length (zfill 6 s) = 6%nat.
Proof.
  intros Hd Hlen. rewrite zfill_digits by done.
  rewrite length_append, length_zeros. lia.
Qed.

Lemma int_of_digits_Some s x :
  int_of_digits s = Some x → all_digits s = true ∧ x = horner 0 s.
Proof.
  unfold int_of_digits. destruct s as [|c s]; [done|].
  destruct (all_digits (String c s)); [|done]. by intros [= <-].
Qed.

Lemma key_lt_same_patient a b x y patient_id :
  int_of_digits a = Some x → int_of_digits b = Some y →
  (String.length a ≤ 6)%nat → (String.length b ≤ 6)%nat →
  count tilde patient_id = 0%nat →
  key_lt (a +:+ "~" +:+ patient_id) (b +:+ "~" +:+ patient_id)
  = Some (bool_decide (x < y)%N).
Proof.
  intros [Ha ->]%int_of_digits_Some [Hb ->]%int_of_digits_Some La Lb Hp.
  unfold key_lt. change ("~" +:+ patient_id) with (String tilde patient_id).
  rewrite !sort_key_well_formed by auto using all_digits_no_tilde.
  f_equal. unfold str_lt, String.ltb.
  rewrite compare_app_prefix, (compare_app_prefix ".").
  rewrite (compare_digits _ _ 0%N).
  - rewrite !zfill_digits, !horner_zeros by done.
    rewrite !N.mul_0_r.
    destruct (N.compare_spec (horner 0 a) (horner 0 b));
      symmetry; [apply bool_decide_eq_false|apply bool_decide_eq_true
                |apply bool_decide_eq_false]; lia.
  - rewrite zfill_digits, all_digits_app, all_digits_zeros by done. done.
  - rewrite zfill_digits, all_digits_app, all_digits_zeros by done. done.
  - by rewrite !length_zfill_digits.
Qed.

End SortKeyClaims.

(** C6, as stated for every sequence, fails: a sequence of more than six
    digits is not padded, and the keys of [1000000~P1] and [999999~P1]
    compare the other way round than the numbers do. *)
Lemma C6_long_sequences_misordered :
  ¬ (∀ a b x y patient_id,
       int_of_digits a = Some x → int_of_digits b = Some y →
       count tilde patient_id = 0%nat →
       key_lt (a +:+ "~" +:+ patient_id) (b +:+ "~" +:+ patient_id)
       = Some (bool_decide (x < y)%N)).
Proof.
  intros Hall.
  specialize (Hall "1000000" "999999" 1000000%N 999999%N "P1"
                   eq_refl eq_refl eq_refl).
  assert (key_lt "1000000~P1" "999999~P1" = Some true) as Hkey by reflexivity.
  assert (bool_decide (1000000 < 999999)%N = false) as Hnum.
  { apply bool_decide_eq_false. lia. }
  change ("1000000" +:+ "~" +:+ "P1") with "1000000~P1" in Hall.
  change ("999999" +:+ "~" +:+ "P1") with "999999~P1" in Hall.
  rewrite Hkey, Hnum in Hall. discriminate.
Qed.

(** C6, amended. For a name [sequence~patient_id] whose two parts contain no [~] the
    sort key is [patient_id.] followed by [sequence.zfill(6)]; for a
    sequence of at most six digits that is the sequence with zeros on the
    left up to six characters. For one patient and two such sequence
    numbers, the keys compare as the numbers do: [key("003~P1") <
    key("002~P1")] is false and [key("002~P1") < key("003~P1")] is true. *)
Theorem C6_sort_key :
  (∀ sequence patient_id,
     count tilde sequence = 0%nat → count tilde patient_id = 0%nat →
     _patient_directory_sort_key (sequence +:+ "~" +:+ patient_id)
     = Ok (patient_id +:+ "." +:+ zfill 6 sequence))
  ∧ (∀ sequence,
       all_digits sequence = true → (String.length sequence ≤ 6)%nat →
       zfill 6 sequence = zeros (6 - String.length sequence) +:+ sequence
       ∧ String.length (zfill 6 sequence) = 6%nat)
  ∧ (∀ a b x y patient_id,
       int_of_digits a = Some x → int_of_digits b = Some y →
       (String.length a ≤ 6)%nat → (String.length b ≤ 6)%nat →
       count tilde patient_id = 0%nat →
       key_lt (a +:+ "~" +:+ patient_id) (b +:+ "~" +:+ patient_id)
       = Some (bool_decide (x < y)%N))
  ∧ key_lt "003~P1" "002~P1" = Some false
  ∧ key_lt "002~P1" "003~P1" = Some true.
Proof.
  split; [|split; [|split; [|split]]].
  - intros sequence patient_id Hs Hp.
    by apply (sort_key_well_formed sequence patient_id).
  - intros sequence Hd Hlen.
    split; [by apply zfill_digits | by apply length_zfill_digits].
  - apply key_lt_same_patient.
  - reflexivity.
  - reflexivity.
Qed.

Lemma C6_sort_key_witness :
  _patient_directory_sort_key "017~LK4" = Ok "LK4.000017"
  ∧ zfill 6 "42" = "000042"
  ∧ key_lt "9~LK4" "10~LK4" = Some true.
Proof.
  destruct C6_sort_key as (Hkey & Hfill & Hlt & _).
  split; [|split].
  - exact (Hkey "017" "LK4" eq_refl eq_refl).
  - exact (proj1 (Hfill "42" eq_refl ltac:(simpl; lia))).
  - exact (Hlt "9" "10" 9%N 10%N "LK4" eq_refl eq_refl
             ltac:(simpl; lia) ltac:(simpl; lia) eq_refl).
Defined.

(** C7. The sort-key function raises [ValueError] (the unpacking of the
    pieces fails) for every name whose number of [~] is not one, and returns
    a key for every name with exactly one [~]. *)
Theorem C7_sort_key_fails_iff_not_one_tilde :
  ∀ patient_directory_name,
    ((∃ msg, _patient_directory_sort_key patient_directory_name
             = Raise (ValueError msg))
     ↔ count tilde patient_directory_name ≠ 1%nat)
    ∧ ((∃ key, _patient_directory_sort_key patient_directory_name = Ok key)
       ↔ count tilde patient_directory_name = 1%nat).
Proof.
  intros s. pose proof (sort_key_ok_iff s) as Hok.
  split; [|exact Hok].
  split.
  - intros [msg Hmsg] Hc. apply Hok in Hc as [k Hk]. congruence.
  - intros Hc. destruct (sort_key_total s) as [[k Hk]|Hr]; [|done].
    exfalso. apply Hc, Hok. eauto.
Qed.

(** ** Dictionaries *)

Section DictFacts.
Context {K V : Type} `{EqDecision K}.
Implicit Types (m : dict K V) (k : K) (v : V).

Lemma dict_get_set m k v k' :
  dict_get k' (dict_set m k v)
  = if decide (k = k') then Some v else dict_get k' m.
Proof.
  induction m as [|[k0 v0] m IH]; simpl.
  - repeat case_decide; congruence.
  - repeat (case_decide; simpl); congruence.
Qed.

Lemma dict_get_None m k : dict_get k m = None ↔ k ∉ dict_keys m.
Proof.
  unfold dict_keys. induction m as [|[k0 v0] m IH]; simpl.
  - split; [intros _; apply not_elem_of_nil | done].
  - rewrite not_elem_of_cons. case_decide; subst.
    + split; [done | intros [? _]; done].
    + rewrite IH. naive_solver.
Qed.

Lemma dict_get_Some_elem m k v : dict_get k m = Some v → (k, v) ∈ m.
Proof.
  induction m as [|[k0 v0] m IH]; simpl; [done|].
  case_decide; subst.
  - intros Hv. injection Hv as ->. left.
  - intros Hv. right. auto.
Qed.

Lemma dict_elem_get m k v : dict_wf m → (k, v) ∈ m → dict_get k m = Some v.
Proof.
  unfold dict_wf, dict_keys. induction m as [|[k0 v0] m IH]; simpl.
  - intros _ H'. by apply elem_of_nil in H'.
  - intros [Hk0 Hm]%NoDup_cons [[= -> ->]|Hin]%elem_of_cons.
    + by rewrite decide_True.
    + rewrite decide_False; [auto|].
      intros ->. apply Hk0. apply list_elem_of_fmap. by exists (k, v).
Qed.

Lemma dict_get_elem m k v : dict_wf m → dict_get k m = Some v ↔ (k, v) ∈ m.
Proof. split; [apply dict_get_Some_elem | by apply dict_elem_get]. Qed.

Lemma dict_keys_set m k v :
  dict_keys (dict_set m k v)
  = if decide (k ∈ dict_keys m) then dict_keys m else dict_keys m ++ [k].
Proof.
  unfold dict_keys. induction m as [|[k0 v0] m IH]; cbn [dict_set fmap list_fmap fst].
  - case_decide as Hin; [by apply elem_of_nil in Hin | done].
  - destruct (decide (k0 = k)) as [->|Hne]; cbn [fmap list_fmap fst].
    + rewrite decide_True; [done | left].
    + rewrite IH. destruct (decide (k ∈ m.*1)) as [Hin|Hin].
      * rewrite decide_True; [done | by right].
      * rewrite decide_False; [done|]. rewrite elem_of_cons. naive_solver.
Qed.

Lemma dict_wf_nil : dict_wf (@nil (K * V)).
Proof. apply NoDup_nil_2. Qed.

Lemma dict_wf_set m k v : dict_wf m → dict_wf (dict_set m k v).
Proof.
  unfold dict_wf. rewrite dict_keys_set. case_decide; [done|].
  intros Hm. apply NoDup_app. split; [done|].
  split; [|apply NoDup_singleton].
  intros x Hx ->%list_elem_of_singleton. done.
Qed.

Lemma elem_of_dict_keys_set m k v k' :
  k' ∈ dict_keys (dict_set m k v) ↔ k' = k ∨ k' ∈ dict_keys m.
Proof.
  rewrite dict_keys_set. case_decide.
  - naive_solver.
  - rewrite elem_of_app, list_elem_of_singleton. naive_solver.
Qed.
End DictFacts.

(** ** Archival selection *)

Section Selection.
Implicit Types (m : dict path Qc) (T w : Qc) (d : path).

Lemma determine_foldl T (items : list (path * Qc)) (acc : list path) :
  foldl (fun directories_to_archive '(directory, weeks) =>
           if decide (T < weeks)%Qc
           then directories_to_archive ++ [directory]
           else directories_to_archive) acc items
  = acc ++ (filter (stale T) items).*1.
Proof.
  revert acc. induction items as [|[d w] items IH]; intros acc; simpl.
  - by rewrite app_nil_r.
  - rewrite IH. rewrite filter_cons. unfold stale at 2. simpl.
    destruct (decide (T < w)%Qc); simpl; [by rewrite <-app_assoc | done].
Qed.

Lemma determine_filter m T :
  _determine_directories_to_archive m T
  = (filter (stale T) (dict_items m)).*1.
Proof. unfold _determine_directories_to_archive. by rewrite determine_foldl. Qed.

Lemma elem_of_determine m T d :
  dict_wf m →
  d ∈ _determine_directories_to_archive m T
  ↔ ∃ w, dict_get d m = Some w ∧ (T < w)%Qc.
Proof.
  intros Hwf. rewrite determine_filter, list_elem_of_fmap. split.
  - intros [[d' w] [-> [Hst Hin]%list_elem_of_filter]].
    exists w. split; [by apply dict_elem_get | done].
  - intros [w [Hget Hlt]]. exists (d, w). split; [done|].
    apply list_elem_of_filter. split; [done | by apply dict_get_Some_elem].
Qed.

Lemma determine_sublist m T :
  sublist (_determine_directories_to_archive m T) (dict_keys m).
Proof.
  rewrite determine_filter. unfold dict_keys, dict_items.
  apply fmap_sublist, sublist_filter.
Qed.

Lemma determine_none m T :
  (∀ d w, (d, w) ∈ m → (w ≤ T)%Qc) →
  _determine_directories_to_archive m T = [].
Proof.
  intros Hall. rewrite determine_filter. unfold dict_items.
  induction m as [|[d w] m IH]; [done|].
  rewrite filter_cons. unfold stale at 1. simpl.
  destruct (decide (T < w)%Qc) as [Hlt|_].
  - exfalso. eapply Qclt_not_le; [exact Hlt|]. apply (Hall d). left.
  - apply IH. intros d' w' Hin. apply (Hall d'). by right.
Qed.

Lemma qc_max_ge_l a b : (a ≤ qc_max a b)%Qc.
Proof. unfold qc_max. case_decide; [by apply Qclt_le_weak | apply Qcle_refl]. Qed.

Lemma qc_max_ge_r a b : (b ≤ qc_max a b)%Qc.
Proof. unfold qc_max. case_decide; [apply Qcle_refl | by apply Qcnot_lt_le]. Qed.

Lemma foldl_qc_max_ge (ws : list Qc) (a : Qc) :
  (a ≤ foldl qc_max a ws)%Qc ∧ ∀ w, w ∈ ws → (w ≤ foldl qc_max a ws)%Qc.
Proof.
  revert a. induction ws as [|x ws IH]; intros a; simpl.
  - split; [apply Qcle_refl | intros w Hw; by apply elem_of_nil in Hw].
  - destruct (IH (qc_max a x)) as [H1 H2]. split.
    + eapply Qcle_trans; [apply qc_max_ge_l | exact H1].
    + intros w [->|Hw]%elem_of_cons; [|auto].
      eapply Qcle_trans; [apply qc_max_ge_r | exact H1].
Qed.

Lemma max_staleness_ge m T d w :
  max_staleness m = Some T → (d, w) ∈ m → (w ≤ T)%Qc.
Proof.
  unfold max_staleness. intros Hmax Hin.
  assert (w ∈ m.*2) as Hw by (apply list_elem_of_fmap; by exists (d, w)).
  destruct (m.*2) as [|w0 ws]; [done|]. injection Hmax as <-.
  destruct (foldl_qc_max_ge ws w0) as [H1 H2].
  apply elem_of_cons in Hw as [->|Hw]; auto.
Qed.

End Selection.

(** C2. Archival selection returns the keys of the items of the mapping
    whose staleness is strictly above the threshold, in the order of the
    mapping: for a dictionary, a directory is selected iff its staleness is
    above [T], so one whose staleness equals [T] is kept; with [T = 0] the
    directories of positive staleness are selected; with [T] the largest
    staleness none is. This holds for every [T], in particular for
    [T >= 0]. *)
Theorem C2_selection_rule (m : dict path Qc) (T : Qc) :
  dict_wf m →
  _determine_directories_to_archive m T
  = (filter (fun item => (T < item.2)%Qc) (dict_items m)).*1
  ∧ sublist (_determine_directories_to_archive m T) (dict_keys m)
  ∧ (∀ d, d ∈ _determine_directories_to_archive m T
          ↔ ∃ w, dict_get d m = Some w ∧ (T < w)%Qc)
  ∧ (∀ d, dict_get d m = Some T →
          d ∉ _determine_directories_to_archive m T)
  ∧ (∀ d, d ∈ _determine_directories_to_archive m 0%Qc
          ↔ ∃ w, dict_get d m = Some w ∧ (0 < w)%Qc)
  ∧ (max_staleness m = Some T →
     _determine_directories_to_archive m T = []).
Proof.
  intros Hwf. split; [|split; [|split; [|split; [|split]]]].
  - apply determine_filter.
  - apply determine_sublist.
  - intros d. by apply elem_of_determine.
  - intros d Hget [w [Hw Hlt]]%elem_of_determine; [|done].
    rewrite Hget in Hw. injection Hw as <-. by apply Qclt_not_eq in Hlt.
  - intros d. by apply elem_of_determine.
  - intros Hmax. apply determine_none. intros d w. by apply max_staleness_ge.
Qed.

Lemma C2_selection_rule_witness :
  dict_wf sample_staleness
  ∧ _determine_directories_to_archive sample_staleness (Qc_of_Z 52)
    = [ ["focal"; "clinic"; "000017~LK4"]; ["focal"; "clinic"; "000004~QT9"] ]
  ∧ _determine_directories_to_archive sample_staleness (Q2Qc (209 # 2)) = [].
Proof.
  assert (dict_wf sample_staleness) as Hwf.
  { apply (bool_decide_unpack _). vm_compute. exact I. }
  split; [exact Hwf|]. split.
  - destruct (C2_selection_rule sample_staleness (Qc_of_Z 52) Hwf) as (-> & _).
    vm_compute. reflexivity.
  - destruct (C2_selection_rule sample_staleness (Q2Qc (209 # 2)) Hwf)
      as (_ & _ & _ & _ & _ & Hmax).
    apply Hmax. vm_compute. reflexivity.
Defined.

(** ** The cache of the selection *)

Section Cache.
Implicit Types (c : cache) (m : dict path Qc) (T : Qc).

Lemma cached_determine_sound c m T :
  cache_sound c → cache_sound (cached_determine c m T).2.
Proof.
  intros Hc. unfold cached_determine.
  destruct (dict_get (m, T) c) as [hit|] eqn:E; [done|].
  intros m' T' hit'. cbn [snd]. rewrite dict_get_set.
  case_decide as Hk; [|by apply Hc].
  injection Hk as <- <-. by intros [= <-].
Qed.

Lemma cache_reachable_sound c : cache_reachable c → cache_sound c.
Proof.
  induction 1 as [|c m T _ IH].
  - intros m T hit. done.
  - by apply cached_determine_sound.
Qed.

Lemma cached_determine_value c m T :
  cache_reachable c →
  (cached_determine c m T).1 = _determine_directories_to_archive m T.
Proof.
  intros Hc%cache_reachable_sound. unfold cached_determine.
  destruct (dict_get (m, T) c) as [hit|] eqn:E; [|done].
  by apply Hc.
Qed.
End Cache.

(** C9. The selection is deterministic: whatever the decorated function
    was called with before (any two caches that calls can have produced),
    two calls with the same mapping and the same threshold return the same
    list, in the same order, namely the list computed from the arguments
    alone; and a call repeated right away returns the same list again. *)
Theorem C9_selection_deterministic (c1 c2 : cache) (m : dict path Qc) (T : Qc) :
  cache_reachable c1 → cache_reachable c2 →
  (cached_determine c1 m T).1 = (cached_determine c2 m T).1
  ∧ (cached_determine c1 m T).1 = _determine_directories_to_archive m T
  ∧ (cached_determine (cached_determine c1 m T).2 m T).1
    = (cached_determine c1 m T).1.
Proof.
  intros H1 H2. split; [|split].
  - by rewrite !cached_determine_value.
  - by apply cached_determine_value.
  - rewrite !cached_determine_value; [done..|]. by constructor.
Qed.

Lemma C9_selection_deterministic_witness :
  (cached_determine [] sample_staleness (Qc_of_Z 52)).1
  = (cached_determine
       (cached_determine [] sample_staleness (Qc_of_Z 1)).2
       sample_staleness (Qc_of_Z 52)).1.
Proof.
  exact (proj1 (C9_selection_deterministic
                  [] (cached_determine [] sample_staleness (Qc_of_Z 1)).2
                  sample_staleness (Qc_of_Z 52)
                  cache_empty (cache_call _ _ _ cache_empty))).
Defined.

(** ** The file-system snapshot *)

Section FileSystem.
Implicit Types (fs n : node) (p q : path) (k : string).

Lemma resolve_app fs p q :
  resolve fs (p ++ q) = resolve fs p ≫= fun n => resolve n q.
Proof.
  revert fs. induction p as [|k p IH]; intros fs; simpl; [done|].
  destruct (child k fs); [apply IH | done].
Qed.

Lemma entry_is_Some k (es : list (string * node)) :
  k ∈ es.*1 → is_Some (entry k es).
Proof.
  induction es as [|[k' n] es IH]; simpl.
  - intros H. by apply elem_of_nil in H.
  - intros [->|Hin]%elem_of_cons.
    + rewrite decide_True by done. eauto.
    + case_decide; eauto.
Qed.

(** What [glob("*")] lists is there. *)
Lemma glob_star_resolve fs p q : q ∈ glob_star fs p → is_Some (resolve fs q).
Proof.
  unfold glob_star. destruct (resolve fs p) as [[t|t es]|] eqn:E;
    try (intros H; by apply elem_of_nil in H).
  intros [[k n] [-> Hin]]%list_elem_of_fmap. unfold joinpath.
  rewrite resolve_app, E. simpl.
  destruct (entry_is_Some k es) as [n' ->]; [|eauto].
  apply list_elem_of_fmap. by exists (k, n).
Qed.

Lemma paths_to_check_resolve fs d q :
  q ∈ paths_to_check fs d → is_Some (resolve fs q).
Proof.
  unfold paths_to_check. intros [H|H]%elem_of_app;
    by apply glob_star_resolve in H.
Qed.

Lemma traverse_getmtime fs (ps : list path) :
  (∀ q, q ∈ ps → is_Some (resolve fs q)) →
  traverse (getmtime fs) ps = Ok (map (modified_time fs) ps).
Proof.
  induction ps as [|q ps IH]; intros Hall; simpl; [done|].
  unfold getmtime at 1, modified_time at 1.
  destruct (Hall q) as [n ->]; [left|].
  rewrite IH; [done|]. intros q' Hq'. apply Hall. by right.
Qed.

(** A missing [plan] subdirectory contributes no path. *)
Lemma paths_to_check_no_plan fs d :
  exists_ fs (joinpath d "plan") = false →
  paths_to_check fs d = glob_star fs d.
Proof.
  unfold paths_to_check, exists_. intros Hplan.
  unfold glob_star at 2.
  destruct (resolve fs (joinpath d "plan")); [done|]. by rewrite app_nil_r.
Qed.
End FileSystem.

(** ** Minimum of an array *)

Section NpMin.
Implicit Types (xs : list Qc) (a b v : Qc).

Lemma qc_min_le_l a b : (qc_min a b ≤ a)%Qc.
Proof. unfold qc_min. case_decide; [by apply Qclt_le_weak | apply Qcle_refl]. Qed.

Lemma qc_min_le_r a b : (qc_min a b ≤ b)%Qc.
Proof. unfold qc_min. case_decide; [apply Qcle_refl | by apply Qcnot_lt_le]. Qed.

Lemma qc_min_cases a b : qc_min a b = a ∨ qc_min a b = b.
Proof. unfold qc_min. case_decide; auto. Qed.

Lemma foldl_qc_min xs a :
  is_minimum (foldl qc_min a xs) (a :: xs).
Proof.
  revert a. induction xs as [|x xs IH]; intros a; simpl.
  - split; [left|]. intros y ->%list_elem_of_singleton. apply Qcle_refl.
  - destruct (IH (qc_min a x)) as [Hin Hle]. split.
    + apply elem_of_cons in Hin as [->|Hin].
      * destruct (qc_min_cases a x) as [->| ->]; [left | right; left].
      * right. by right.
    + intros y [->|[->|Hy]%elem_of_cons]%elem_of_cons.
      * eapply Qcle_trans; [apply Hle; left | apply qc_min_le_l].
      * eapply Qcle_trans; [apply Hle; left | apply qc_min_le_r].
      * apply Hle. by right.
Qed.

Lemma np_min_Ok xs : xs ≠ [] → ∃ v, np_min xs = Ok v ∧ is_minimum v xs.
Proof.
  destruct xs as [|x xs]; [done|]. intros _. eexists. split; [done|].
  apply foldl_qc_min.
Qed.

Lemma np_min_nil : np_min [] = Raise zero_size.
Proof. done. Qed.
End NpMin.

(** ** Rational arithmetic of the staleness computation *)

Section Rationals.
Implicit Types (x y : Qc).

Lemma Qcdiv_this x y : (this (x / y)%Qc == this x / this y)%Q.
Proof.
  unfold Qcdiv, Qcmult, Qcinv. cbn [this Q2Qc].
  rewrite !Qred_correct. reflexivity.
Qed.

Lemma Qcdiv_nonneg x y : (0 ≤ x)%Qc → (0 < y)%Qc → (0 ≤ x / y)%Qc.
Proof.
  unfold Qcle, Qclt. intros Hx Hy. rewrite Qcdiv_this.
  apply Qle_shift_div_l; [exact Hy|].
  change (this 0%Qc) with 0%Q in *. by rewrite Qmult_0_l.
Qed.

Lemma Qcdiv_le_1 x y : (x ≤ y)%Qc → (0 < y)%Qc → (x / y ≤ 1)%Qc.
Proof.
  unfold Qcle, Qclt. intros Hx Hy. rewrite Qcdiv_this.
  apply Qle_shift_div_r; [exact Hy|].
  change (this 1%Qc) with 1%Q. by rewrite Qmult_1_l.
Qed.

Lemma Qc_of_Z_le (a b : Z) : (a ≤ b)%Z → (Qc_of_Z a ≤ Qc_of_Z b)%Qc.
Proof. unfold Qcle. cbn [this Qc_of_Z]. by rewrite <-Zle_Qle. Qed.

Lemma Qc_of_Z_lt (a b : Z) : (a < b)%Z → (Qc_of_Z a < Qc_of_Z b)%Qc.
Proof. unfold Qclt. cbn [this Qc_of_Z]. by rewrite <-Zlt_Qlt. Qed.

Lemma fraction_range (i n : nat) :
  (i < n)%nat → (0 ≤ fraction i n ∧ fraction i n ≤ 1)%Qc.
Proof.
  intros Hi. unfold fraction. split.
  - apply Qcdiv_nonneg.
    + apply (Qc_of_Z_le 0). lia.
    + apply (Qc_of_Z_lt 0). lia.
  - apply Qcdiv_le_1.
    + apply Qc_of_Z_le. lia.
    + apply (Qc_of_Z_lt 0). lia.
Qed.

Lemma seconds_per_week_eq : seconds_per_week = Qc_of_Z (7 * 86400).
Proof. reflexivity. Qed.

Lemma seconds_per_week_pos : (0 < seconds_per_week)%Qc.
Proof. apply (Qc_of_Z_lt 0). done. Qed.

Lemma weeks_nonneg (now t : Qc) :
  (t ≤ now)%Qc → (0 ≤ (now - t) / seconds_per_week)%Qc.
Proof.
  intros Ht. apply Qcdiv_nonneg; [|apply seconds_per_week_pos].
  apply Qcle_minus_iff in Ht. exact Ht.
Qed.
End Rationals.

(** ** The staleness loop *)

Section Staleness.
Variables (fs : node) (now : Qc).
Implicit Types (d : path) (ds : list path) (acc m : dict path Qc) (s : app).

Lemma minimum_spec d :
  minimum_number_of_weeks_ago fs now d = np_min (weeks_since fs now d).
Proof.
  unfold minimum_number_of_weeks_ago, weeks_since.
  rewrite traverse_getmtime by apply paths_to_check_resolve.
  by rewrite map_map.
Qed.

Lemma minimum_has_data d :
  has_data fs d →
  ∃ v, minimum_number_of_weeks_ago fs now d = Ok v
       ∧ is_minimum v (weeks_since fs now d)
       ∧ staleness fs now d = v.
Proof.
  intros Hd. destruct (np_min_Ok (weeks_since fs now d)) as [v [Hv Hmin]].
  - unfold weeks_since. intros Hnil. apply Hd.
    by apply map_eq_nil in Hnil.
  - exists v. unfold staleness. rewrite minimum_spec, Hv. done.
Qed.

Lemma minimum_no_data d :
  paths_to_check fs d = [] →
  minimum_number_of_weeks_ago fs now d = Raise zero_size.
Proof. intros Hd. rewrite minimum_spec. unfold weeks_since. by rewrite Hd. Qed.

Lemma weeks_loop_cons_ok n i d ds acc s v :
  minimum_number_of_weeks_ago fs now d = Ok v → (i < n)%nat →
  weeks_loop fs now n i (d :: ds) acc s
  = weeks_loop fs now n (S i) ds (dict_set acc d v)
      (mkApp (Some (name d)) (Some (fraction i n)) (page s) (moved s)).
Proof.
  intros Hv Hi. cbn [weeks_loop]. unfold bind, status_write, lift, progress.
  rewrite Hv. cbn [status_indicator progress_bar page moved].
  rewrite decide_True; [done|]. by apply fraction_range.
Qed.

Lemma weeks_loop_cons_raise n i d ds acc s e :
  minimum_number_of_weeks_ago fs now d = Raise e →
  weeks_loop fs now n i (d :: ds) acc s
  = (Raise e, mkApp (Some (name d)) (progress_bar s) (page s) (moved s)).
Proof.
  intros He. cbn [weeks_loop]. unfold bind, status_write, lift.
  by rewrite He.
Qed.

(** The loop either records every directory, or stops at the first
    directory without data, whose name the status line then shows. *)
Lemma weeks_loop_cases n ds : ∀ i acc s,
  (i + length ds ≤ n)%nat →
  (Forall (has_data fs) ds
   ∧ ∃ s', weeks_loop fs now n i ds acc s
           = (Ok (record_all fs now ds acc), s')
           ∧ page s' = page s ∧ moved s' = moved s)
  ∨ (∃ ds1 d ds2 s',
       ds = ds1 ++ d :: ds2 ∧ Forall (has_data fs) ds1
       ∧ paths_to_check fs d = []
       ∧ weeks_loop fs now n i ds acc s = (Raise zero_size, s')
       ∧ status_indicator s' = Some (name d)
       ∧ page s' = page s ∧ moved s' = moved s).
Proof.
  induction ds as [|d ds IH]; intros i acc s Hn.
  - left. split; [constructor|]. by exists s.
  - cbn [length] in Hn.
    destruct (paths_to_check fs d) as [|q qs] eqn:Hd.
    + right. exists [], d, ds. eexists. split; [done|]. split; [constructor|].
      split; [done|]. split; [by apply weeks_loop_cons_raise, minimum_no_data|].
      done.
    + assert (has_data fs d) as Hdata by (unfold has_data; by rewrite Hd).
      destruct (minimum_has_data d Hdata) as [v (Hv & _ & Hst)].
      rewrite (weeks_loop_cons_ok n i d ds acc s v) by (done || lia).
      set (s1 := mkApp _ _ _ _).
      destruct (IH (S i) (dict_set acc d v) s1) as
        [[Hall [s' (Hrun & Hp & Hm)]]
        |(ds1 & d0 & ds2 & s' & -> & Hall & Hd0 & Hrun & Hs & Hp & Hm)];
        [lia| |].
      * left. split; [by constructor|]. exists s'.
        unfold record_all. cbn [foldl]. rewrite Hst. done.
      * right. exists (d :: ds1), d0, ds2, s'.
        split; [done|]. split; [by constructor|]. done.
Qed.

Lemma record_all_get ds : ∀ acc d,
  dict_get d (record_all fs now ds acc)
  = if decide (d ∈ ds) then Some (staleness fs now d) else dict_get d acc.
Proof.
  unfold record_all. induction ds as [|x ds IH]; intros acc d; cbn [foldl].
  - rewrite decide_False; [done | apply not_elem_of_nil].
  - rewrite IH. destruct (decide (d ∈ ds)) as [Hin|Hin].
    + rewrite decide_True; [done | by right].
    + rewrite dict_get_set. destruct (decide (x = d)) as [->|Hne].
      * rewrite decide_True; [done | left].
      * rewrite decide_False; [done|]. rewrite elem_of_cons. naive_solver.
Qed.

Lemma record_all_keys ds : ∀ acc d,
  d ∈ dict_keys (record_all fs now ds acc) ↔ d ∈ ds ∨ d ∈ dict_keys acc.
Proof.
  unfold record_all. induction ds as [|x ds IH]; intros acc d; cbn [foldl].
  - rewrite elem_of_nil. naive_solver.
  - rewrite IH, elem_of_dict_keys_set, elem_of_cons. naive_solver.
Qed.

Lemma record_all_wf ds : ∀ acc,
  dict_wf acc → dict_wf (record_all fs now ds acc).
Proof.
  unfold record_all. induction ds as [|x ds IH]; intros acc Hwf; cbn [foldl];
    [done|]. by apply IH, dict_wf_set.
Qed.

Lemma record_all_keys_fresh ds : ∀ acc,
  NoDup ds → (∀ d, d ∈ ds → d ∉ dict_keys acc) →
  dict_keys (record_all fs now ds acc) = dict_keys acc ++ ds.
Proof.
  unfold record_all. induction ds as [|x ds IH]; intros acc Hnd Hfresh;
    cbn [foldl]; [by rewrite app_nil_r|].
  apply NoDup_cons in Hnd as [Hx Hnd].
  rewrite IH; [|done|].
  - rewrite dict_keys_set, decide_False by (apply Hfresh; left).
    by rewrite <-app_assoc.
  - intros d Hd. rewrite elem_of_dict_keys_set.
    intros [->|Hin]; [done|]. apply (Hfresh d); [by right | done].
Qed.

(** With data in every directory the computation returns the mapping. *)
Lemma weeks_since_touched_Ok ds s :
  Forall (has_data fs) ds →
  ∃ s', _weeks_since_touched fs now ds s = (Ok (record_all fs now ds []), s')
        ∧ page s' = page s ∧ moved s' = moved s.
Proof.
  intros Hall. unfold _weeks_since_touched, bind, new_widgets.
  set (s0 := mkApp _ _ _ _).
  destruct (weeks_loop_cases (length ds) ds 0 [] s0) as
    [[_ [s' (Hrun & Hp & Hm)]]
    |(ds1 & d & ds2 & s' & -> & _ & Hd & _)]; [lia| |].
  - exists s'. by rewrite Hrun.
  - exfalso. apply Forall_app in Hall as [_ Hall].
    apply Forall_cons in Hall as [Hdata _]. by apply Hdata.
Qed.

(** A mapping that is returned is the one of [record_all], and every
    directory had data. *)
Lemma weeks_since_touched_inv ds s m s' :
  _weeks_since_touched fs now ds s = (Ok m, s') →
  m = record_all fs now ds [] ∧ Forall (has_data fs) ds.
Proof.
  unfold _weeks_since_touched, bind, new_widgets.
  set (s0 := mkApp _ _ _ _).
  destruct (weeks_loop_cases (length ds) ds 0 [] s0) as
    [[Hall [s1 (Hrun & _)]]
    |(ds1 & d & ds2 & s1 & -> & _ & _ & Hrun & _)]; [lia| |];
    rewrite Hrun; intros [= <- <-]; done.
Qed.

(** Without data in one directory it raises, at the first such one. *)
Lemma weeks_since_touched_Raise ds s :
  ¬ Forall (has_data fs) ds →
  ∃ d s', d ∈ ds ∧ paths_to_check fs d = []
          ∧ _weeks_since_touched fs now ds s = (Raise zero_size, s')
          ∧ status_indicator s' = Some (name d)
          ∧ page s' = page s ∧ moved s' = moved s.
Proof.
  intros Hnot. unfold _weeks_since_touched, bind, new_widgets.
  set (s0 := mkApp _ _ _ _).
  destruct (weeks_loop_cases (length ds) ds 0 [] s0) as
    [[Hall _]
    |(ds1 & d & ds2 & s1 & -> & _ & Hd & Hrun & Hs & Hp & Hm)]; [lia|done|].
  exists d, s1. rewrite Hrun. split; [|done].
  apply elem_of_app. right. left.
Qed.
End Staleness.

Example sample_staleness_LK4_17 :
  minimum_number_of_weeks_ago sample_fs sample_now dir_LK4_17 = Ok 1%Qc.
Proof. qc_compute. Qed.

Example sample_staleness_QT9 :
  minimum_number_of_weeks_ago sample_fs sample_now dir_QT9
  = Ok (Q2Qc (209 # 2)).
Proof. qc_compute. Qed.

Example sample_run :
  (_weeks_since_touched sample_fs sample_now
     [dir_LK4_17; dir_LK4_18; dir_QT9] blank).1
  = Ok [ (dir_LK4_17, 1%Qc); (dir_LK4_18, Qc_of_Z 60);
         (dir_QT9, Q2Qc (209 # 2)) ].
Proof. qc_compute. Qed.

(** C3. When a patient directory of the input has no gathered path (no
    direct child and no child of its [plan] subdirectory), line 242 raises
    the [ValueError] of [np.min] on an empty array for it, and the whole
    computation raises that error instead of returning a mapping; the
    status line then names a directory without gathered paths. *)
Theorem C3_no_data_raises (fs : node) (now : Qc) (ds : list path) (d : path)
    (s : app) :
  d ∈ ds →
  glob_star fs d = [] → glob_star fs (joinpath d "plan") = [] →
  minimum_number_of_weeks_ago fs now d = Raise zero_size
  ∧ (∃ d0 s', d0 ∈ ds ∧ paths_to_check fs d0 = []
              ∧ _weeks_since_touched fs now ds s = (Raise zero_size, s')
              ∧ status_indicator s' = Some (name d0))
  ∧ (∀ m s', _weeks_since_touched fs now ds s ≠ (Ok m, s')).
Proof.
  intros Hin Hd Hplan.
  assert (paths_to_check fs d = []) as Hnone.
  { unfold paths_to_check. by rewrite Hd, Hplan. }
  assert (¬ Forall (has_data fs) ds) as Hnot.
  { intros Hall. rewrite Forall_forall in Hall. by apply (Hall d Hin). }
  destruct (weeks_since_touched_Raise fs now ds s Hnot)
    as (d0 & s' & Hd0 & Hp0 & Hrun & Hst & _).
  split; [by apply minimum_no_data|]. split.
  - by exists d0, s'.
  - intros m s1. by rewrite Hrun.
Qed.

Lemma C3_no_data_raises_witness :
  (_weeks_since_touched sample_fs sample_now
     [dir_LK4_17; dir_AB1; dir_QT9] blank).1 = Raise zero_size.
Proof.
  destruct (C3_no_data_raises sample_fs sample_now
              [dir_LK4_17; dir_AB1; dir_QT9] dir_AB1 blank)
    as (_ & (d0 & s' & _ & _ & -> & _) & _).
  - apply (bool_decide_unpack _). vm_compute. exact I.
  - reflexivity.
  - reflexivity.
  - reflexivity.
Defined.

(** C4. For a patient directory with at least one gathered path, lines
    236-242 compute the minimum of [(now - modified_time) / (7 * 86400)]
    over its direct children together with the children of its [plan]
    subdirectory, and when every directory of the input has a gathered path
    this is the value the returned mapping holds for it. A missing [plan]
    contributes no path and raises nothing: the minimum is then over the
    direct children. A directory whose items are 1, 3 and 10 weeks old has
    staleness 1; a directory whose newest item is a child of [plan], 104.5
    weeks old, has staleness 104.5. *)
Theorem C4_staleness_is_minimum :
  (∀ fs now d,
     glob_star fs d ++ glob_star fs (joinpath d "plan") ≠ [] →
     ∃ v, minimum_number_of_weeks_ago fs now d = Ok v
          ∧ is_minimum v
              (weeks_of fs now
                 (glob_star fs d ++ glob_star fs (joinpath d "plan"))))
  ∧ (∀ fs now ds d s,
       (∀ d', d' ∈ ds →
              glob_star fs d' ++ glob_star fs (joinpath d' "plan") ≠ []) →
       d ∈ ds →
       ∃ m s' v, _weeks_since_touched fs now ds s = (Ok m, s')
                 ∧ dict_get d m = Some v
                 ∧ is_minimum v
                     (weeks_of fs now
                        (glob_star fs d ++ glob_star fs (joinpath d "plan"))))
  ∧ (∀ fs now d,
       exists_ fs (joinpath d "plan") = false → glob_star fs d ≠ [] →
       ∃ v, minimum_number_of_weeks_ago fs now d = Ok v
            ∧ is_minimum v (weeks_of fs now (glob_star fs d)))
  ∧ minimum_number_of_weeks_ago sample_fs sample_now dir_LK4_17 = Ok 1%Qc
  ∧ minimum_number_of_weeks_ago sample_fs sample_now dir_QT9
    = Ok (Q2Qc (209 # 2)).
Proof.
  split; [|split; [|split; [|split]]].
  - intros fs now d Hd.
    destruct (minimum_has_data fs now d Hd) as (v & Hv & Hmin & _). eauto.
  - intros fs now ds d s Hall Hin.
    assert (Forall (has_data fs) ds) as Hdata by by apply Forall_forall.
    destruct (weeks_since_touched_Ok fs now ds s Hdata) as (s' & Hrun & _).
    destruct (minimum_has_data fs now d (Hall d Hin)) as (v & _ & Hmin & Hst).
    exists (record_all fs now ds []), s', v. split; [done|].
    split; [|done]. rewrite record_all_get, decide_True by done. by rewrite Hst.
  - intros fs now d Hplan Hglob.
    pose proof (paths_to_check_no_plan fs d Hplan) as Hpaths.
    destruct (minimum_has_data fs now d) as (v & Hv & Hmin & _).
    + unfold has_data. by rewrite Hpaths.
    + exists v. split; [done|]. unfold weeks_since in Hmin.
      by rewrite Hpaths in Hmin.
  - apply sample_staleness_LK4_17.
  - apply sample_staleness_QT9.
Qed.

Lemma C4_staleness_is_minimum_witness :
  ∃ m s', _weeks_since_touched sample_fs sample_now
            [dir_LK4_18; dir_QT9] blank = (Ok m, s')
          ∧ dict_get dir_QT9 m = Some (Q2Qc (209 # 2)).
Proof.
  destruct C4_staleness_is_minimum as (_ & Hrun & _).
  destruct (Hrun sample_fs sample_now [dir_LK4_18; dir_QT9] dir_QT9 blank)
    as (m & s' & v & H1 & H2 & [Hin Hle]).
  - intros d' [->|[->|[]%elem_of_nil]%elem_of_cons]%elem_of_cons; discriminate.
  - apply (bool_decide_unpack _). vm_compute. exact I.
  - exists m, s'. split; [exact H1|]. rewrite H2. f_equal.
    apply Qcle_antisym.
    + apply Hle. apply (bool_decide_unpack _). vm_compute. exact I.
    + assert (Forall (fun x => (Q2Qc (209 # 2) ≤ x)%Qc)
                (weeks_of sample_fs sample_now
                   (glob_star sample_fs dir_QT9
                    ++ glob_star sample_fs (joinpath dir_QT9 "plan"))))
        as Hall.
      { apply (bool_decide_unpack _). vm_compute. exact I. }
      rewrite Forall_forall in Hall. by apply Hall.
Defined.

(** C5, as stated, fails: a file stamped later than [now] gives its
    directory a negative number of weeks. *)
Lemma C5_negative_staleness :
  ¬ (∀ fs now ds s m s' d v,
       _weeks_since_touched fs now ds s = (Ok m, s') →
       dict_get d m = Some v → (0 ≤ v)%Qc).
Proof.
  intros Hall.
  destruct (_weeks_since_touched sample_fs sample_now [dir_FU2] blank)
    as [r s'] eqn:Hrun.
  assert (r = Ok [(dir_FU2, Qc_of_Z (-1))]) as ->.
  { change r with (r, s').1. rewrite <-Hrun. qc_compute. }
  specialize (Hall sample_fs sample_now [dir_FU2] blank _ s' dir_FU2
                   (Qc_of_Z (-1)) Hrun eq_refl).
  revert Hall. apply Qclt_not_le. reflexivity.
Qed.

(** C5, amended. When no gathered path is stamped later than [now], every
    value of the returned mapping is non-negative. *)
Theorem C5_staleness_nonneg (fs : node) (now : Qc) (ds : list path) (s : app)
    (m : dict path Qc) (s' : app) (d : path) (v : Qc) :
  (∀ d' p, d' ∈ ds → p ∈ paths_to_check fs d' →
           (modified_time fs p ≤ now)%Qc) →
  _weeks_since_touched fs now ds s = (Ok m, s') →
  dict_get d m = Some v →
  (0 ≤ v)%Qc.
Proof.
  intros Hpast [-> Hall]%weeks_since_touched_inv Hget.
  rewrite record_all_get in Hget.
  destruct (decide (d ∈ ds)) as [Hin|_]; [|done]. injection Hget as <-.
  rewrite Forall_forall in Hall.
  destruct (minimum_has_data fs now d (Hall d Hin)) as (v & _ & [Hv _] & ->).
  unfold weeks_since in Hv. apply list_elem_of_fmap in Hv as (p & -> & Hp).
  rewrite <-seconds_per_week_eq. apply weeks_nonneg. by apply (Hpast d).
Qed.

Lemma C5_staleness_nonneg_witness :
  (_weeks_since_touched sample_fs sample_now [dir_LK4_18; dir_QT9] blank).1
  = Ok [(dir_LK4_18, Qc_of_Z 60); (dir_QT9, Q2Qc (209 # 2))]
  ∧ (0 ≤ Q2Qc (209 # 2))%Qc.
Proof.
  destruct (_weeks_since_touched sample_fs sample_now [dir_LK4_18; dir_QT9]
              blank) as [r s'] eqn:Hrun.
  assert (r = Ok [(dir_LK4_18, Qc_of_Z 60); (dir_QT9, Q2Qc (209 # 2))]) as ->.
  { change r with (r, s').1. rewrite <-Hrun. qc_compute. }
  split; [reflexivity|].
  assert (∀ d' p, d' ∈ [dir_LK4_18; dir_QT9] →
                  p ∈ paths_to_check sample_fs d' →
                  (modified_time sample_fs p ≤ sample_now)%Qc) as Hpast.
  { assert (Forall (fun d' => Forall (fun p => modified_time sample_fs p
                                               ≤ sample_now)%Qc
                                     (paths_to_check sample_fs d'))
                   [dir_LK4_18; dir_QT9]) as Hall.
    { apply (bool_decide_unpack _). vm_compute. exact I. }
    intros d' p Hd' Hp.
    rewrite Forall_forall in Hall. specialize (Hall d' Hd').
    rewrite Forall_forall in Hall. by apply Hall. }
  exact (C5_staleness_nonneg sample_fs sample_now [dir_LK4_18; dir_QT9]
           blank _ s' dir_QT9 _ Hpast Hrun eq_refl).
Defined.

(** C10. When every directory of the input has at least one gathered
    path, the computation returns a mapping whose keys are exactly the input
    directories: each input directory is a key, each key is an input
    directory, no key occurs twice, and for an input without repetition the
    keys are the input in its order. *)
Theorem C10_staleness_keys (fs : node) (now : Qc) (ds : list path) (s : app) :
  Forall (has_data fs) ds →
  ∃ m s', _weeks_since_touched fs now ds s = (Ok m, s')
          ∧ (∀ d, d ∈ dict_keys m ↔ d ∈ ds)
          ∧ list_to_set (C := gset path) (dict_keys m) = list_to_set ds
          ∧ dict_wf m
          ∧ (∀ d, d ∈ ds → ∃ v, dict_get d m = Some v)
          ∧ (∀ d, d ∉ ds → dict_get d m = None)
          ∧ (NoDup ds → dict_keys m = ds).
Proof.
  intros Hall.
  destruct (weeks_since_touched_Ok fs now ds s Hall) as (s' & Hrun & _).
  exists (record_all fs now ds []), s'. split; [done|].
  assert (∀ d, d ∈ dict_keys (record_all fs now ds []) ↔ d ∈ ds) as Hkeys.
  { intros d. rewrite record_all_keys. split; [|by left].
    intros [Hd|Hd]; [done | by apply elem_of_nil in Hd]. }
  split; [done|]. split; [|split; [|split; [|split]]].
  - apply set_eq. intros d. by rewrite !elem_of_list_to_set.
  - apply record_all_wf, dict_wf_nil.
  - intros d Hd. rewrite record_all_get, decide_True by done. eauto.
  - intros d Hd. by rewrite record_all_get, decide_False.
  - intros Hnd. rewrite record_all_keys_fresh; [done..|].
    intros d _. apply not_elem_of_nil.
Qed.

Lemma C10_staleness_keys_witness :
  ∃ m, (_weeks_since_touched sample_fs sample_now
          [dir_LK4_17; dir_LK4_18; dir_LK4_17; dir_QT9] blank).1 = Ok m
       ∧ list_to_set (C := gset path) (dict_keys m)
         = list_to_set [dir_LK4_17; dir_LK4_18; dir_LK4_17; dir_QT9]
       ∧ dict_wf m.
Proof.
  destruct (C10_staleness_keys sample_fs sample_now
              [dir_LK4_17; dir_LK4_18; dir_LK4_17; dir_QT9] blank)
    as (m & s' & Hrun & _ & Hset & Hwf & _).
  - apply (bool_decide_unpack _). vm_compute. exact I.
  - exists m. rewrite Hrun. split; [reflexivity|]. split; [exact Hset | exact Hwf].
Defined.

(** ** The move batch *)

Section MoveBatch.
Variable (fs : node).
Implicit Types (ds : list path) (s : app) (allow : bool).

Lemma check_sources_spec ds : ∀ allow s,
  check_sources fs ds allow s
  = (Ok (allow && bool_decide (ds = [])),
     mkApp (status_indicator s) (progress_bar s)
           (page s ++ source_warnings fs ds) (moved s)).
Proof.
  unfold source_warnings.
  induction ds as [|d ds IH]; intros allow s; cbn [check_sources].
  - unfold ret. rewrite andb_true_r, app_nil_r. by destruct s.
  - unfold bind. rewrite filter_cons.
    destruct (exists_ fs d) eqn:E; cbn [negb].
    + unfold ret. rewrite IH. rewrite decide_False by done.
      by rewrite andb_false_r.
    + unfold st_warning. rewrite IH. rewrite decide_True by done.
      cbn [status_indicator progress_bar page moved map fmap list_fmap].
      rewrite andb_false_r. by rewrite <-app_assoc.
Qed.

Lemma check_final_locations_spec ds : ∀ allow s,
  check_final_locations fs ds allow s
  = (Ok (allow && bool_decide (ds = [])),
     mkApp (status_indicator s) (progress_bar s)
           (page s ++ destination_warnings fs ds) (moved s)).
Proof.
  unfold destination_warnings.
  induction ds as [|d ds IH]; intros allow s; cbn [check_final_locations].
  - unfold ret. rewrite andb_true_r, app_nil_r. by destruct s.
  - unfold bind. rewrite filter_cons.
    destruct (exists_ fs d) eqn:E.
    + unfold st_warning. rewrite IH. rewrite decide_True by done.
      cbn [status_indicator progress_bar page moved map fmap list_fmap].
      rewrite andb_false_r. by rewrite <-app_assoc.
    + unfold ret. rewrite IH. rewrite decide_False by done.
      by rewrite andb_false_r.
Qed.

Lemma for_each_move_nil s :
  for_each [] (fun '(from_dir, to_dir) => shutil_move from_dir to_dir) s
  = (Ok tt, s).
Proof. done. Qed.

(** The move is allowed only for an empty selection, and no call of
    [shutil.move] is ever made. *)
Lemma move_section_spec holding destination undergo ds s :
  ∃ s', move_section fs holding destination undergo ds s
        = (Ok (bool_decide (ds = [])
               && bool_decide (glob_star fs holding = [])), s')
        ∧ moved s' = moved s.
Proof.
  unfold move_section, bind.
  rewrite check_sources_spec, check_final_locations_spec.
  unfold st_write, check_holding.
  cbn [status_indicator progress_bar page moved andb].
  destruct ds as [|d ds].
  - cbn [map zip zip_with]. rewrite !bool_decide_eq_true_2 by done.
    cbn [andb]. destruct (glob_star fs holding) as [|q qs] eqn:Hh.
    + rewrite decide_False by (cbn [length]; lia).
      unfold ret. rewrite bool_decide_eq_true_2 by done. cbn [andb].
      destruct undergo; eexists; split; reflexivity.
    + rewrite decide_True by done. unfold bind, st_warning, ret.
      rewrite bool_decide_eq_false_2 by done.
      cbn [andb]. eexists; split; reflexivity.
  - rewrite !(bool_decide_eq_false_2 (_ :: _ = [])) by done.
    cbn [andb]. destruct (decide (length (glob_star fs holding) ≠ 0%nat)).
    + unfold bind, st_warning, ret. cbn [andb]. eexists; split; reflexivity.
    + unfold ret. cbn [andb]. eexists; split; reflexivity.
Qed.

(** A precondition that fails blocks the batch. *)
Lemma move_blocked_when_precondition_fails holding destination undergo ds s :
  ¬ (sources_exist fs ds ∧ destinations_free fs destination ds
     ∧ holding_empty fs holding) →
  ∃ s', move_section fs holding destination undergo ds s = (Ok false, s')
        ∧ moved s' = moved s.
Proof.
  intros Hpre.
  destruct (move_section_spec holding destination undergo ds s)
    as (s' & Hrun & Hm).
  exists s'. split; [|done]. rewrite Hrun. do 2 f_equal.
  destruct ds as [|d ds]; [|done].
  rewrite bool_decide_eq_true_2 by done. cbn [andb].
  apply bool_decide_eq_false_2. intros Hh. apply Hpre.
  split; [|split; [|done]]; intros d Hd; by apply elem_of_nil in Hd.
Qed.

(** A selection that is not empty blocks the batch, whatever the
    preconditions. *)
Lemma move_blocked_when_selection holding destination undergo d ds s :
  ∃ s', move_section fs holding destination undergo (d :: ds) s
        = (Ok false, s')
        ∧ moved s' = moved s.
Proof.
  destruct (move_section_spec holding destination undergo (d :: ds) s)
    as (s' & Hrun & Hm).
  exists s'. by rewrite Hrun.
Qed.
End MoveBatch.

(** C1 fails on the code for every selection that is not empty: lines 149
    and 157 clear [allow_move_button] in each turn of their loops, not only
    next to the warning. Here one directory is selected, it exists, its
    final-archive location is free and the holding directory is empty, yet
    the move is not allowed and "Undergo move" moves nothing; so it is for
    every selection with a directory in it. *)
Theorem C1_move_blocked_although_preconditions_hold :
  sources_exist sample_fs [dir_LK4_18]
  ∧ destinations_free sample_fs sample_destination [dir_LK4_18]
  ∧ holding_empty sample_fs sample_holding
  ∧ (move_section sample_fs sample_holding sample_destination true
       [dir_LK4_18] blank).1 = Ok false
  ∧ moved (move_section sample_fs sample_holding sample_destination true
             [dir_LK4_18] blank).2 = []
  ∧ (∀ fs holding destination undergo d ds s,
       (move_section fs holding destination undergo (d :: ds) s).1 = Ok false
       ∧ moved (move_section fs holding destination undergo (d :: ds) s).2
         = moved s).
Proof.
  split; [|split; [|split; [|split; [|split]]]].
  - intros d ->%list_elem_of_singleton. reflexivity.
  - intros d ->%list_elem_of_singleton. reflexivity.
  - reflexivity.
  - reflexivity.
  - reflexivity.
  - intros fs holding destination undergo d ds s.
    destruct (move_blocked_when_selection fs holding destination undergo d ds s)
      as (s' & -> & Hm). done.
Qed.

(** ** The verification of the moves *)

Section Verification.
Variables (fs : node) (destination : path).
Implicit Types (ds : list path) (s : app) (d t : path).

Lemma zip_fmap_r {A B} (f : A → B) (l : list A) :
  zip l (f <$> l) = (fun x => (x, f x)) <$> l.
Proof. induction l as [|x l IH]; [done|]. cbn. by rewrite <-IH. Qed.

Lemma test_loop_spec (pairs : list (path * path)) : ∀ lb nia s,
  test_loop fs pairs lb nia s
  = (Ok (lb ++ filter (fun d => exists_ fs d = true) pairs.*1,
         nia ++ filter (fun t => exists_ fs t = false) pairs.*2),
     mkApp (status_indicator s) (progress_bar s)
           (page s ++ test_errors fs pairs) (moved s)).
Proof.
  unfold test_errors.
  induction pairs as [|[f t] pairs IH]; intros lb nia s; cbn [test_loop].
  - unfold ret. cbn. rewrite !app_nil_r. by destruct s.
  - cbn [fmap list_fmap fst snd mbind list_bind]. rewrite !filter_cons.
    unfold bind.
    destruct (exists_ fs f) eqn:Ef, (exists_ fs t) eqn:Et; cbn [negb];
      unfold st_error, ret; rewrite IH;
      cbn [status_indicator progress_bar page moved];
      repeat (rewrite decide_True by done);
      repeat (rewrite decide_False by done);
      cbn [List.app]; by rewrite <-?app_assoc.
Qed.

Lemma elem_of_test_errors_left ds d :
  StError (LeftBehind d)
    ∈ test_errors fs ((fun d => (d, final_location destination d)) <$> ds)
  ↔ d ∈ ds ∧ exists_ fs d = true.
Proof.
  unfold test_errors. rewrite list_elem_of_bind. split.
  - intros [[f t] [Hin [d' [[= -> ->] Hd']]%list_elem_of_fmap]].
    apply elem_of_app in Hin as [Hin|Hin].
    + destruct (exists_ fs d') eqn:E; [|by apply elem_of_nil in Hin].
      apply list_elem_of_singleton in Hin. by injection Hin as ->.
    + destruct (exists_ fs (final_location destination d'));
        [by apply elem_of_nil in Hin|].
      by apply list_elem_of_singleton in Hin.
  - intros [Hd He]. exists (d, final_location destination d). split.
    + rewrite He. apply elem_of_app. left. left.
    + apply list_elem_of_fmap. by exists d.
Qed.

Lemma elem_of_test_errors_right ds t :
  StError (NotFoundInArchive t)
    ∈ test_errors fs ((fun d => (d, final_location destination d)) <$> ds)
  ↔ ∃ d, d ∈ ds ∧ t = final_location destination d ∧ exists_ fs t = false.
Proof.
  unfold test_errors. rewrite list_elem_of_bind. split.
  - intros [[f t'] [Hin [d' [[= -> ->] Hd']]%list_elem_of_fmap]].
    apply elem_of_app in Hin as [Hin|Hin].
    + destruct (exists_ fs d'); [|by apply elem_of_nil in Hin].
      by apply list_elem_of_singleton in Hin.
    + destruct (exists_ fs (final_location destination d')) eqn:E;
        [by apply elem_of_nil in Hin|].
      apply list_elem_of_singleton in Hin. injection Hin as ->.
      by exists d'.
  - intros (d & Hd & -> & He). exists (d, final_location destination d).
    split.
    + rewrite He. apply elem_of_app. right. left.
    + apply list_elem_of_fmap. by exists d.
Qed.

Lemma success_not_in_test_errors (pairs : list (path * path)) :
  StSuccess AllMovesSuccessful ∉ test_errors fs pairs.
Proof.
  unfold test_errors. rewrite list_elem_of_bind.
  intros [[f t] [Hin _]]. apply elem_of_app in Hin as [Hin|Hin].
  - destruct (exists_ fs f); [|by apply elem_of_nil in Hin].
    by apply list_elem_of_singleton in Hin.
  - destruct (exists_ fs t); [by apply elem_of_nil in Hin|].
    by apply list_elem_of_singleton in Hin.
Qed.

Lemma filter_nil_iff {A} (P : A → Prop) `{∀ x, Decision (P x)} (l : list A) :
  filter P l = [] ↔ ∀ x, x ∈ l → ¬ P x.
Proof.
  split.
  - intros Hnil x Hx HP. by apply (filter_nil_not_elem_of P l x).
  - intros Hall. induction l as [|x l IH]; [done|].
    rewrite filter_cons, decide_False by (apply Hall; left).
    apply IH. intros y Hy. apply Hall. by right.
Qed.

Lemma all_pass_iff ds :
  (filter (fun d => exists_ fs d = true) ds = []
   ∧ filter (fun t => exists_ fs t = false)
            (final_location destination <$> ds) = [])
  ↔ ∀ d, d ∈ ds → item_passes fs destination d.
Proof.
  rewrite !filter_nil_iff. unfold item_passes. split.
  - intros [H1 H2] d Hd. split.
    + specialize (H1 d Hd). by destruct (exists_ fs d).
    + specialize (H2 (final_location destination d)).
      destruct (exists_ fs (final_location destination d)); [done|].
      exfalso. apply H2; [|done]. apply list_elem_of_fmap. by exists d.
  - intros Hall. split.
    + intros d Hd He. destruct (Hall d Hd) as [Hs _]. congruence.
    + intros t [d [-> Hd]]%list_elem_of_fmap He.
      destruct (Hall d Hd) as [_ Ht]. congruence.
Qed.
End Verification.

Section VerificationAction.
Variables (fs : node) (destination : path).
Implicit Types (ds : list path) (s : app).

(** What "Test moves" returns and writes. *)
Lemma test_section_spec ds s :
  let lb := filter (fun d => exists_ fs d = true) ds in
  let nia := filter (fun t => exists_ fs t = false)
                    (final_location destination <$> ds) in
  test_section fs destination true ds s
  = (Ok (lb, nia),
     mkApp (status_indicator s) (progress_bar s)
       (page s
        ++ test_errors fs
             ((fun d => (d, final_location destination d)) <$> ds)
        ++ (if bool_decide (lb = []) && bool_decide (nia = [])
            then [StSuccess AllMovesSuccessful] else []))
       (moved s)).
Proof.
  intros lb nia. unfold test_section, bind.
  assert (map (joinpath destination) (map name ds)
          = final_location destination <$> ds) as ->.
  { by rewrite map_map. }
  rewrite test_loop_spec, zip_fmap_r.
  assert (((fun d => (d, final_location destination d)) <$> ds).*1 = ds) as ->.
  { rewrite <-list_fmap_compose. apply list_fmap_id. }
  assert (((fun d => (d, final_location destination d)) <$> ds).*2
          = final_location destination <$> ds) as ->.
  { by rewrite <-list_fmap_compose. }
  cbn [List.app]. fold lb nia.
  destruct (bool_decide (lb = []) && bool_decide (nia = []));
    unfold st_success, ret;
    cbn [status_indicator progress_bar page moved];
    by rewrite <-?app_assoc, ?app_nil_r.
Qed.
End VerificationAction.

(** C8. "Test moves" looks at every selected directory: those that still
    exist at their source path are collected and reported as left behind,
    the locations [destination/name] that do not exist are collected and
    reported as not found in the archive, and the success notice is written
    iff every directory is gone from its source and present in the archive.
    Directory [005~ABC], moved to the archive, is reported a success;
    directory [006~ABC], still in the clinic, is reported as left behind. *)
Theorem C8_verification :
  (∀ fs destination ds s,
     ∃ out s',
       test_section fs destination true ds s
       = (Ok (filter (fun d => exists_ fs d = true) ds,
              filter (fun t => exists_ fs t = false)
                     (final_location destination <$> ds)), s')
       ∧ page s' = page s ++ out ∧ moved s' = moved s
       ∧ (∀ d, StError (LeftBehind d) ∈ out
               ↔ d ∈ ds ∧ exists_ fs d = true)
       ∧ (∀ t, StError (NotFoundInArchive t) ∈ out
               ↔ ∃ d, d ∈ ds ∧ t = final_location destination d
                      ∧ exists_ fs t = false)
       ∧ (StSuccess AllMovesSuccessful ∈ out
          ↔ ∀ d, d ∈ ds → item_passes fs destination d))
  ∧ page (test_section archived_fs sample_destination true
            [joinpath sample_clinic "005~ABC"] blank).2
    = [StSuccess AllMovesSuccessful]
  ∧ page (test_section archived_fs sample_destination true
            [joinpath sample_clinic "006~ABC"] blank).2
    = [ StError (LeftBehind (joinpath sample_clinic "006~ABC"));
        StError (NotFoundInArchive (joinpath sample_destination "006~ABC")) ].
Proof.
  split; [|split; reflexivity].
  intros fs destination ds s. rewrite test_section_spec.
  set (lb := filter _ ds). set (nia := filter _ (_ <$> ds)).
  set (pairs := (fun d => (d, final_location destination d)) <$> ds).
  eexists _, _. split; [reflexivity|]. cbn [page moved].
  split; [reflexivity|]. split; [reflexivity|].
  assert (∀ e, e ≠ StSuccess AllMovesSuccessful →
               e ∈ test_errors fs pairs
                   ++ (if bool_decide (lb = []) && bool_decide (nia = [])
                       then [StSuccess AllMovesSuccessful] else [])
               ↔ e ∈ test_errors fs pairs) as Herr.
  { intros e He. rewrite elem_of_app. split; [|by left].
    intros [Hin|Hin]; [done|].
    destruct (_ && _); [|by apply elem_of_nil in Hin].
    by apply list_elem_of_singleton in Hin. }
  split; [|split].
  - intros d. rewrite Herr by done. apply elem_of_test_errors_left.
  - intros t. rewrite Herr by done. apply elem_of_test_errors_right.
  - rewrite <-all_pass_iff. fold lb nia. rewrite elem_of_app. split.
    + intros [Hin|Hin]; [by apply success_not_in_test_errors in Hin|].
      destruct (bool_decide (lb = [])) eqn:E1, (bool_decide (nia = [])) eqn:E2;
        cbn [andb] in Hin; try (by apply elem_of_nil in Hin).
      by apply bool_decide_eq_true_1 in E1, E2.
    + intros [-> ->]. right. rewrite !bool_decide_eq_true_2 by done. left.
Qed.

(** * Further properties of the application *)

(** ** Directory discovery *)

Section Discovery.
Implicit Types (fs : node) (p q d clinic : path) (k s : string).

Lemma name_joinpath p k : name (joinpath p k) = k.
Proof. unfold name, joinpath. apply last_last. Qed.

Lemma parent_joinpath p k : parent (joinpath p k) = p.
Proof. unfold parent, joinpath. apply removelast_last. Qed.

Lemma glob_star_joinpath fs p q :
  q ∈ glob_star fs p → ∃ k, q = joinpath p k.
Proof.
  unfold glob_star. destruct (resolve fs p) as [[t|t es]|];
    try (intros H; by apply elem_of_nil in H).
  intros [[k n] [-> _]]%list_elem_of_fmap. by exists k.
Qed.

Lemma glob_star_is_dir fs p q : q ∈ glob_star fs p → is_dir fs p = true.
Proof.
  unfold glob_star, is_dir. destruct (resolve fs p) as [[t|t es]|];
    try (intros H; by apply elem_of_nil in H). done.
Qed.

Lemma fnmatch_star s : fnmatch "*" s = true.
Proof.
  induction s as [|c s IH]; [reflexivity|].
  change (fnmatch "*" (String c s)) with (false || fnmatch "*" s).
  by rewrite IH.
Qed.

Lemma fnmatch_tilde s : fnmatch "*~*" s = true ↔ count tilde s ≠ 0%nat.
Proof.
  induction s as [|c s IH].
  - split; [discriminate | done].
  - change (fnmatch "*~*" (String c s))
      with (fnmatch "~*" (String c s) || fnmatch "*~*" s).
    change (fnmatch "~*" (String c s))
      with ((false || Ascii.eqb "~" c) && fnmatch "*" s).
    rewrite fnmatch_star, andb_true_r, orb_false_l. cbn [count].
    rewrite (Ascii.eqb_sym "~" c). fold tilde.
    destruct (Ascii.eqb c tilde); cbn [orb].
    + split; [intros _; simpl; lia | done].
    + rewrite IH. simpl. done.
Qed.

Lemma fnmatch_literal_star lit s :
  count "*" lit = 0%nat → count "?" lit = 0%nat →
  fnmatch (lit +:+ "*") s = String.prefix lit s.
Proof.
  revert s. induction lit as [|c lit IH]; intros s Hstar Hany.
  - rewrite fnmatch_star. by destruct s.
  - cbn [count] in Hstar, Hany.
    destruct (Ascii.eqb c "*") eqn:E1; [simpl in Hstar; lia|].
    destruct (Ascii.eqb c "?") eqn:E2; [simpl in Hany; lia|].
    simpl. rewrite E1.
    destruct s as [|d s]; [done|]. rewrite E2, orb_false_l.
    rewrite IH by done.
    change (String.prefix (String c lit) (String d s))
      with (if ascii_dec c d then String.prefix lit s else false).
    destruct (ascii_dec c d) as [->|Hne].
    + by rewrite Ascii.eqb_refl.
    + apply Ascii.eqb_neq in Hne. by rewrite Hne.
Qed.

Lemma fnmatch_demographic s :
  fnmatch "demographic.*" s = String.prefix "demographic." s.
Proof. by apply (fnmatch_literal_star "demographic."). Qed.
End Discovery.

Section DiscoveryFacts.
Implicit Types (fs : node) (p q d f clinic : path).

Lemma glob_star_not_dir fs p : is_dir fs p = false → glob_star fs p = [].
Proof.
  unfold is_dir, glob_star. by destruct (resolve fs p) as [[t|t es]|].
Qed.

Lemma is_dir_exists fs p : is_dir fs p = true → exists_ fs p = true.
Proof. unfold is_dir, exists_. by destruct (resolve fs p). Qed.

Lemma elem_of_glob_demographic fs clinic f :
  f ∈ glob fs clinic "*~*/demographic.*"
  ↔ ∃ d, d ∈ glob_star fs clinic ∧ is_dir fs d = true
         ∧ count tilde (name d) ≠ 0%nat
         ∧ f ∈ glob_star fs d
         ∧ String.prefix "demographic." (name f) = true.
Proof.
  unfold glob.
  change (split "/" "*~*/demographic.*") with ["*~*"; "demographic.*"].
  assert (f ∈ select fs ["*~*"; "demographic.*"] clinic
          ↔ ∃ d, d ∈ glob_star fs clinic ∧ is_dir fs d = true
                 ∧ count tilde (name d) ≠ 0%nat
                 ∧ f ∈ glob_star fs d
                 ∧ String.prefix "demographic." (name f) = true) as Hsel.
  { cbn [select]. rewrite list_elem_of_bind. split.
    - intros (d & Hf & [[Hdir Hm] Hd]%list_elem_of_filter).
      apply list_elem_of_bind in Hf
        as (f' & Hf' & [[_ Hm'] Hin]%list_elem_of_filter).
      apply list_elem_of_singleton in Hf' as ->.
      exists d. split; [done|]. split; [by apply Hdir|].
      split; [by apply fnmatch_tilde|]. split; [done|].
      by rewrite <-fnmatch_demographic.
    - intros (d & Hd & Hdir & Hm & Hf & Hp). exists d. split.
      + apply list_elem_of_bind. exists f. split; [left|].
        apply list_elem_of_filter. split; [|done].
        split; [done|]. by rewrite fnmatch_demographic.
      + apply list_elem_of_filter. split; [|done].
        split; [done|]. by apply fnmatch_tilde. }
  destruct (is_dir fs clinic) eqn:E; [done|].
  rewrite elem_of_nil. split; [done|].
  intros (d & Hd & _). rewrite glob_star_not_dir in Hd by done.
  by apply elem_of_nil in Hd.
Qed.

Lemma elem_of_find_patient_directories fs clinic d :
  d ∈ find_patient_directories fs clinic
  ↔ d ∈ glob_star fs clinic ∧ is_dir fs d = true
    ∧ count tilde (name d) ≠ 0%nat
    ∧ ∃ f, f ∈ glob_star fs d
           ∧ String.prefix "demographic." (name f) = true.
Proof.
  unfold find_patient_directories. rewrite list_elem_of_fmap. split.
  - intros (f & -> & (d' & Hd & Hdir & Hm & Hf & Hp)%elem_of_glob_demographic).
    destruct (glob_star_joinpath fs d' f Hf) as [k Hk].
    rewrite Hk, parent_joinpath. rewrite Hk in Hf, Hp. eauto 10.
  - intros (Hd & Hdir & Hm & f & Hf & Hp). exists f. split.
    + destruct (glob_star_joinpath fs d f Hf) as [k ->].
      by rewrite parent_joinpath.
    + apply elem_of_glob_demographic. eauto 10.
Qed.

Lemma find_patient_directories_has_data fs clinic :
  Forall (has_data fs) (find_patient_directories fs clinic).
Proof.
  apply Forall_forall. intros d (_ & _ & _ & f & Hf & _)%elem_of_find_patient_directories.
  unfold has_data, paths_to_check. intros Hnil.
  apply app_eq_nil in Hnil as [Hnil _]. rewrite Hnil in Hf.
  by apply elem_of_nil in Hf.
Qed.
End DiscoveryFacts.

(** X1. Discovery returns the directories directly under the clinic whose
    name has at least one [~] and which hold an entry whose name starts with
    [demographic.] (once per such entry); every directory found is
    [clinic/name], exists, and has at least one gathered path. *)
Theorem find_patient_directories_spec (fs : node) (clinic d : path) :
  (d ∈ find_patient_directories fs clinic
   ↔ d ∈ glob_star fs clinic ∧ is_dir fs d = true
     ∧ count tilde (name d) ≠ 0%nat
     ∧ ∃ f, f ∈ glob_star fs d
            ∧ String.prefix "demographic." (name f) = true)
  ∧ (d ∈ find_patient_directories fs clinic →
     d = joinpath clinic (name d) ∧ exists_ fs d = true ∧ has_data fs d).
Proof.
  split; [apply elem_of_find_patient_directories|].
  intros Hd. pose proof (find_patient_directories_has_data fs clinic) as Hall.
  rewrite Forall_forall in Hall. specialize (Hall d Hd).
  apply elem_of_find_patient_directories in Hd as (Hin & Hdir & _).
  destruct (glob_star_joinpath fs clinic d Hin) as [k ->].
  rewrite name_joinpath. split; [done|]. split; [by apply is_dir_exists | done].
Qed.

Lemma find_patient_directories_spec_witness :
  dir_QT9 = joinpath sample_clinic (name dir_QT9)
  ∧ exists_ sample_fs dir_QT9 = true ∧ has_data sample_fs dir_QT9.
Proof.
  apply (find_patient_directories_spec sample_fs sample_clinic dir_QT9).
  apply (bool_decide_unpack _). vm_compute. exact I.
Defined.

(** X2. Every directory that discovery returns has a gathered path: an
    entry of its own whose name starts with [demographic.]. So, on the
    snapshot of the discovery, the staleness computation of these
    directories does not fail with the [ValueError] of [np.min] on an empty
    array. *)
Theorem staleness_of_discovered_directories (fs : node) (clinic : path)
    (now : Qc) (s : app) :
  (∀ d, d ∈ find_patient_directories fs clinic →
        ∃ f, f ∈ glob_star fs d
             ∧ f ∈ glob_star fs d ++ glob_star fs (joinpath d "plan")
             ∧ String.prefix "demographic." (name f) = true)
  ∧ ∀ s', _weeks_since_touched fs now (find_patient_directories fs clinic) s
          ≠ (Raise zero_size, s').
Proof.
  split.
  - intros d (_ & _ & _ & f & Hf & Hp)%elem_of_find_patient_directories.
    exists f. split; [done|]. split; [|done]. apply elem_of_app. by left.
  - intros s' Hraise.
    pose proof (find_patient_directories_has_data fs clinic) as Hall.
    destruct (weeks_since_touched_Ok fs now _ s Hall) as (s1 & Hrun & _).
    rewrite Hrun in Hraise. discriminate.
Qed.

Example sample_discovery :
  find_patient_directories sample_fs sample_clinic
  = [dir_LK4_17; dir_LK4_18; dir_QT9; dir_FU2].
Proof. reflexivity. Qed.

(** ** Stable sorting on keys *)

Section StableSort.
Context {K A : Type} `{EqDecision K} (lt : K → K → bool).
Hypothesis lt_irrefl : ∀ a, lt a a = false.
Hypothesis lt_asym : ∀ a b, lt a b = true → lt b a = false.
Hypothesis not_lt_trans :
  ∀ a b c, lt b a = false → lt c b = false → lt c a = false.
Implicit Types (x y : K * A) (l : list (K * A)).

Lemma insert_by_Permutation x l : insert_by lt x l ≡ₚ x :: l.
Proof.
  induction l as [|y l IH]; cbn [insert_by]; [done|].
  destruct (lt y.1 x.1); [|done]. rewrite IH. apply Permutation_swap.
Qed.

Lemma sort_by_Permutation l : sort_by lt l ≡ₚ l.
Proof.
  induction l as [|x l IH]; cbn [sort_by]; [done|].
  by rewrite insert_by_Permutation, IH.
Qed.

Lemma insert_by_filter_key (k : K) x l :
  filter (fun y => y.1 = k) (insert_by lt x l)
  = filter (fun y => y.1 = k) (x :: l).
Proof.
  induction l as [|y l IH]; cbn [insert_by]; [done|].
  destruct (lt y.1 x.1) eqn:E; [|done].
  rewrite filter_cons, IH, !filter_cons.
  destruct (decide (x.1 = k)) as [Hx|Hx]; [|done].
  destruct (decide (y.1 = k)) as [Hy|Hy]; [|done].
  rewrite Hx, Hy, lt_irrefl in E. done.
Qed.

(** Items of one key keep the order they had. *)
Lemma sort_by_stable (k : K) l :
  filter (fun y => y.1 = k) (sort_by lt l) = filter (fun y => y.1 = k) l.
Proof.
  induction l as [|x l IH]; cbn [sort_by]; [done|].
  by rewrite insert_by_filter_key, !filter_cons, IH.
Qed.

Lemma insert_by_sorted x l :
  StronglySorted (fun x y => lt y.1 x.1 = false) l →
  StronglySorted (fun x y => lt y.1 x.1 = false) (insert_by lt x l).
Proof.
  induction 1 as [|y l Hl IH Hall]; cbn [insert_by].
  - repeat constructor.
  - destruct (lt y.1 x.1) eqn:E.
    + constructor; [done|].
      rewrite insert_by_Permutation.
      constructor; [|done]. by apply lt_asym.
    + constructor; [by constructor|]. constructor; [done|].
      eapply Forall_impl; [exact Hall|]. intros z Hz. cbn beta in *.
      by eapply not_lt_trans.
Qed.

Lemma sort_by_sorted l :
  StronglySorted (fun x y => lt y.1 x.1 = false) (sort_by lt l).
Proof.
  induction l as [|x l IH]; cbn [sort_by]; [constructor|].
  by apply insert_by_sorted.
Qed.
End StableSort.

Section Traverse.
Context {A B : Type} (f : A → result B).

Lemma traverse_Ok_iff (xs : list A) (ys : list B) :
  traverse f xs = Ok ys ↔ Forall2 (fun x y => f x = Ok y) xs ys.
Proof.
  revert ys. induction xs as [|x xs IH]; intros ys; cbn [traverse].
  - split; [intros [= <-]; constructor | by intros ->%Forall2_nil_inv_l].
  - split.
    + destruct (f x) as [y|e] eqn:Ex; [|done].
      destruct (traverse f xs) as [ys'|e] eqn:Exs; [|done].
      intros [= <-]. constructor; [done|]. by apply IH.
    + intros (y & ys' & Hy & Hys & ->)%Forall2_cons_inv_l.
      rewrite Hy. apply IH in Hys. by rewrite Hys.
Qed.

Lemma traverse_Raise_iff (xs : list A) :
  (∃ e, traverse f xs = Raise e) ↔ ∃ x e, x ∈ xs ∧ f x = Raise e.
Proof.
  induction xs as [|x xs IH]; cbn [traverse].
  - split; [by intros [e ?]|]. intros (x & e & Hx & _).
    by apply elem_of_nil in Hx.
  - destruct (f x) as [y|e] eqn:Ex.
    + destruct (traverse f xs) as [ys|e] eqn:Exs.
      * split; [by intros [e ?]|].
        intros (x' & e & [->|Hx']%elem_of_cons & He); [congruence|].
        destruct IH as [_ IH]. destruct IH as [e' ?]; [eauto|done].
      * split; [|eauto]. intros _.
        destruct IH as [IH _]. destruct IH as (x' & e' & Hx' & He'); [eauto|].
        exists x', e'. split; [by right | done].
    + split; [|eauto]. intros _. exists x, e. split; [left | done].
Qed.
End Traverse.

(** ** The listing of all patient directories *)

Section Listing.
Implicit Types (a b c n : string) (names out : list string).

Lemma str_lt_irrefl a : str_lt a a = false.
Proof.
  unfold str_lt, String.ltb.
  assert (String.compare a a = Eq) as ->; [|done].
  induction a as [|c a IH]; simpl; [done|]. by rewrite ascii_compare_refl.
Qed.

Lemma str_lt_asym a b : str_lt a b = true → str_lt b a = false.
Proof.
  unfold str_lt, String.ltb. rewrite (String.compare_antisym b a).
  by destruct (String.compare a b).
Qed.

Lemma str_lt_false_le a b : str_lt b a = false ↔ String.le a b.
Proof.
  unfold str_lt, String.ltb, String.le, String.leb.
  rewrite (String.compare_antisym b a).
  destruct (String.compare a b); simpl; naive_solver.
Qed.

Lemma str_not_lt_trans a b c :
  str_lt b a = false → str_lt c b = false → str_lt c a = false.
Proof. rewrite !str_lt_false_le. intros ??. by etrans. Qed.

Lemma keyed_filter (k : string) (l : list (string * string)) :
  Forall (fun p => _patient_directory_sort_key p.2 = Ok p.1) l →
  filter (fun n => _patient_directory_sort_key n = Ok k) l.*2
  = (filter (fun p => p.1 = k) l).*2.
Proof.
  induction 1 as [|[k' n] l Hk Hl IH]; [done|].
  cbn [fmap list_fmap snd]. rewrite !filter_cons, IH. cbn [fst snd] in *.
  rewrite Hk. destruct (decide (k' = k)) as [->|Hne].
  - by rewrite decide_True.
  - rewrite decide_False; [done|]. congruence.
Qed.

Lemma keyed_sorted (l : list (string * string)) :
  Forall (fun p => _patient_directory_sort_key p.2 = Ok p.1) l →
  StronglySorted (fun x y => str_lt y.1 x.1 = false) l →
  StronglySorted (fun a b => key_lt b a = Some false) l.*2.
Proof.
  intros Hk Hs. induction Hs as [|[k n] l Hs IH Hall]; [constructor|].
  apply Forall_cons in Hk as [Hn Hk]. cbn [fmap list_fmap snd].
  constructor; [by apply IH|].
  apply Forall_fmap, Forall_forall. intros [k' n'] Hin.
  rewrite Forall_forall in Hall, Hk.
  specialize (Hall _ Hin). specialize (Hk _ Hin). cbn [fst snd] in *.
  change (key_lt n' n = Some false).
  unfold key_lt. by rewrite Hk, Hn, Hall.
Qed.

Lemma zip_keys names (keys : list string) :
  Forall2 (fun n k => _patient_directory_sort_key n = Ok k) names keys →
  Forall (fun p => _patient_directory_sort_key p.2 = Ok p.1) (zip keys names)
  ∧ (zip keys names).*2 = names.
Proof.
  induction 1 as [|n k names keys Hk Hall [IH1 IH2]]; [done|].
  cbn. split; [by constructor | by rewrite IH2].
Qed.
End Listing.

(** X3. The listing of all patient directories raises [ValueError] exactly
    when some directory name does not have exactly one [~]; discovery only
    asks for at least one. *)
Theorem id_sorted_directory_names_raises (directory_names : list string) :
  (∃ e, id_sorted_directory_names directory_names = Raise e)
  ↔ ∃ n, n ∈ directory_names ∧ count tilde n ≠ 1%nat.
Proof.
  unfold id_sorted_directory_names. split.
  - intros [e He].
    destruct (traverse _ directory_names) as [keys|e'] eqn:E; [done|].
    destruct (proj1 (traverse_Raise_iff _patient_directory_sort_key
                       directory_names))
      as (n & e'' & Hn & Hr); [eauto|].
    exists n. split; [done|]. intros Hc.
    apply sort_key_ok_iff in Hc as [k Hk]. congruence.
  - intros (n & Hn & Hc).
    destruct (proj2 (traverse_Raise_iff _patient_directory_sort_key
                       directory_names)) as [e He].
    + destruct (sort_key_total n) as [[k Hk]|[msg Hmsg]]; [|eauto].
      exfalso. apply Hc, sort_key_ok_iff. eauto.
    + rewrite He. eauto.
Qed.

(** X4. When the listing does not raise, it holds the directory names
    again, each as often as before, no name with a smaller key after a name
    with a larger one, and names of one key in the order they came in. *)
Theorem id_sorted_directory_names_sorted (directory_names out : list string) :
  id_sorted_directory_names directory_names = Ok out →
  out ≡ₚ directory_names
  ∧ StronglySorted (fun a b => key_lt b a = Some false) out
  ∧ ∀ k, filter (fun n => _patient_directory_sort_key n = Ok k) out
         = filter (fun n => _patient_directory_sort_key n = Ok k)
                  directory_names.
Proof.
  unfold id_sorted_directory_names.
  destruct (traverse _ directory_names) as [keys|e] eqn:E; [|done].
  intros [= <-]. apply traverse_Ok_iff in E.
  destruct (zip_keys directory_names keys E) as [Hk Hnames].
  pose proof (sort_by_Permutation str_lt (zip keys directory_names)) as Hperm.
  assert (Forall (fun p => _patient_directory_sort_key p.2 = Ok p.1)
                 (sort_by str_lt (zip keys directory_names))) as Hk'.
  { by rewrite Hperm. }
  split; [|split].
  - rewrite Hperm. by rewrite Hnames.
  - apply keyed_sorted; [done|].
    apply sort_by_sorted; [apply str_lt_asym | apply str_not_lt_trans].
  - intros k. rewrite keyed_filter by done.
    rewrite sort_by_stable by apply str_lt_irrefl.
    rewrite <-keyed_filter by done. by rewrite Hnames.
Qed.

Lemma id_sorted_directory_names_sorted_witness :
  [ "000004~AB1"; "17~LK4"; "000018~LK4"; "3~QT9" ]
  ≡ₚ [ "000018~LK4"; "3~QT9"; "17~LK4"; "000004~AB1" ].
Proof.
  apply (id_sorted_directory_names_sorted
           [ "000018~LK4"; "3~QT9"; "17~LK4"; "000004~AB1" ]
           [ "000004~AB1"; "17~LK4"; "000018~LK4"; "3~QT9" ]).
  reflexivity.
Defined.

(** ** The markdown of the listing *)

Section PrintList.
Implicit Types (a b c id : string) (ids : list string).

Lemma append_assoc a b c : (a +:+ b) +:+ c = a +:+ (b +:+ c).
Proof.
  induction a as [|x a IH]; [reflexivity|].
  change (String x ((a +:+ b) +:+ c) = String x (a +:+ b +:+ c)).
  by rewrite IH.
Qed.

Lemma count_append sep a b :
  count sep (a +:+ b) = (count sep a + count sep b)%nat.
Proof. induction a as [|x a IH]; simpl; [done|]. rewrite IH. lia. Qed.

Lemma print_list_cons id id' ids :
  _print_list_of_ids (id :: id' :: ids)
  = bullet id +:+ newline +:+ _print_list_of_ids (id' :: ids).
Proof.
  unfold _print_list_of_ids, bullet.
  change (String.concat ?sep (id :: id' :: ids))
    with (id +:+ sep +:+ String.concat sep (id' :: ids)).
  by rewrite !append_assoc.
Qed.

Lemma print_list_concat ids :
  ids ≠ [] →
  _print_list_of_ids ids = String.concat newline (bullet <$> ids).
Proof.
  induction ids as [|id [|id' ids] IH]; intros Hne; [done|done|].
  rewrite print_list_cons, IH by done. reflexivity.
Qed.

Lemma count_newline_bullet id :
  count (ascii_of_nat 10) (bullet id) = count (ascii_of_nat 10) id.
Proof. unfold bullet. rewrite !count_append. simpl. lia. Qed.

Lemma split_concat_newline (lines : list string) :
  lines ≠ [] →
  Forall (fun l => count (ascii_of_nat 10) l = 0%nat) lines →
  split (ascii_of_nat 10) (String.concat newline lines) = lines.
Proof.
  induction lines as [|l [|l' lines] IH]; intros Hne Hall; [done| |].
  - apply Forall_cons in Hall as [Hl _]. simpl. by apply split_no_sep.
  - apply Forall_cons in Hall as [Hl Hall].
    change (String.concat newline (l :: l' :: lines))
      with (l +:+ newline +:+ String.concat newline (l' :: lines)).
    change (newline +:+ ?s) with (String (ascii_of_nat 10) s).
    rewrite split_app by done. by rewrite IH.
Qed.
End PrintList.

(** X5. For a list of ids that is not empty the markdown of the listing is
    one bullet per id, the bullets joined by line breaks; when no id holds a
    line break, splitting the markdown at line breaks gives the bullets
    back, one per id and in order. *)
Theorem print_list_of_ids_lines (ids : list string) :
  ids ≠ [] →
  Forall (fun id => count (ascii_of_nat 10) id = 0%nat) ids →
  _print_list_of_ids ids = String.concat newline (bullet <$> ids)
  ∧ split (ascii_of_nat 10) (_print_list_of_ids ids) = bullet <$> ids.
Proof.
  intros Hne Hall. rewrite print_list_concat by done. split; [done|].
  apply split_concat_newline.
  - by destruct ids.
  - apply Forall_fmap. eapply Forall_impl; [exact Hall|].
    intros id Hid. cbn. by rewrite count_newline_bullet.
Qed.

Lemma print_list_of_ids_lines_witness :
  split (ascii_of_nat 10) (_print_list_of_ids ["000004~AB1"; "17~LK4"])
  = ["* `000004~AB1`"; "* `17~LK4`"].
Proof.
  apply (print_list_of_ids_lines ["000004~AB1"; "17~LK4"]).
  - discriminate.
  - repeat constructor.
Defined.

(** ** The listing by weeks since touched *)

Section Display.
Variables (clinic : path) (weeks : dict path Qc).
Implicit Types (names : list string) (items : list (string * Qc)).

Lemma weeks_gt_false (a b : Qc) : weeks_gt a b = false ↔ (a ≤ b)%Qc.
Proof.
  unfold weeks_gt. rewrite bool_decide_eq_false. symmetry. apply Qcle_ngt.
Qed.

Lemma weeks_gt_irrefl (a : Qc) : weeks_gt a a = false.
Proof. apply weeks_gt_false, Qcle_refl. Qed.

Lemma weeks_gt_asym (a b : Qc) : weeks_gt a b = true → weeks_gt b a = false.
Proof.
  unfold weeks_gt. intros H%bool_decide_eq_true.
  apply weeks_gt_false. by apply Qclt_le_weak.
Qed.

Lemma weeks_gt_not_trans (a b c : Qc) :
  weeks_gt b a = false → weeks_gt c b = false → weeks_gt c a = false.
Proof. rewrite !weeks_gt_false. intros ??. by eapply Qcle_trans. Qed.

Lemma zip_weeks names (keys : list Qc) :
  Forall2 (fun n k => _get_weeks clinic weeks n = Some k) names keys →
  Forall (fun p => _get_weeks clinic weeks p.2 = Some p.1) (zip keys names)
  ∧ (zip keys names).*2 = names.
Proof.
  induction 1 as [|n k names keys Hk Hall [IH1 IH2]]; [done|].
  cbn. split; [by constructor | by rewrite IH2].
Qed.

Lemma display_items (l : list (Qc * string)) :
  Forall (fun p => _get_weeks clinic weeks p.2 = Some p.1) l →
  mapM (fun directory =>
          w ← _get_weeks clinic weeks directory; Some (directory, w)) l.*2
  = Some ((fun p => (p.2, p.1)) <$> l).
Proof.
  intros Hl. apply mapM_Some. induction Hl as [|[w n] l Hw Hl IH].
  - constructor.
  - cbn [fmap list_fmap fst snd] in *. constructor; [|done]. by rewrite Hw.
Qed.

Lemma display_unfold names (keys : list Qc) :
  mapM (_get_weeks clinic weeks) names = Some keys →
  _display_directory_names clinic weeks names
  = Some ((fun p => (p.2, p.1)) <$> sort_by weeks_gt (zip keys names)).
Proof.
  intros Hkeys. unfold _display_directory_names. rewrite Hkeys. cbn [mbind option_bind].
  apply mapM_Some in Hkeys. destruct (zip_weeks names keys Hkeys) as [Hk _].
  apply display_items.
  by rewrite (sort_by_Permutation weeks_gt (zip keys names)).
Qed.

Lemma weeks_filter (w : Qc) (l : list (Qc * string)) :
  Forall (fun p => _get_weeks clinic weeks p.2 = Some p.1) l →
  filter (fun n => _get_weeks clinic weeks n = Some w) l.*2
  = (filter (fun p => p.1 = w) l).*2.
Proof.
  induction 1 as [|[w' n] l Hw Hl IH]; [done|].
  cbn [fmap list_fmap snd]. rewrite !filter_cons, IH. cbn [fst snd] in *.
  rewrite Hw. destruct (decide (w' = w)) as [->|Hne].
  - by rewrite decide_True.
  - rewrite decide_False; [done|]. congruence.
Qed.
End Display.

(** X6. The listing by weeks raises [KeyError] exactly when the mapping has
    no entry for [clinic/name] for one of the names. Otherwise it lists the
    names again, each as often as before and each with the weeks the mapping
    holds for it, the largest number of weeks first, names of equal weeks in
    the order they came in. *)
Theorem display_directory_names_spec (clinic : path) (weeks : dict path Qc)
    (directory_names : list string) :
  (_display_directory_names clinic weeks directory_names = None
   ↔ ∃ n, n ∈ directory_names
          ∧ dict_get (joinpath clinic n) weeks = None)
  ∧ ∀ items,
      _display_directory_names clinic weeks directory_names = Some items →
      items.*1 ≡ₚ directory_names
      ∧ Forall (fun it => dict_get (joinpath clinic it.1) weeks = Some it.2)
               items
      ∧ StronglySorted (fun a b => (b.2 ≤ a.2)%Qc) items
      ∧ ∀ w, filter (fun n => dict_get (joinpath clinic n) weeks = Some w)
                    items.*1
             = filter (fun n => dict_get (joinpath clinic n) weeks = Some w)
                      directory_names.
Proof.
  destruct (mapM (_get_weeks clinic weeks) directory_names) as [keys|] eqn:E.
  - rewrite (display_unfold clinic weeks directory_names keys E).
    pose proof E as Hkeys. apply mapM_Some in Hkeys.
    destruct (zip_weeks clinic weeks directory_names keys Hkeys) as [Hk Hn].
    pose proof (sort_by_Permutation weeks_gt (zip keys directory_names))
      as Hperm.
    assert (Forall (fun p => _get_weeks clinic weeks p.2 = Some p.1)
                   (sort_by weeks_gt (zip keys directory_names))) as Hk'.
    { by rewrite Hperm. }
    assert (((fun p : Qc * string => (p.2, p.1))
               <$> sort_by weeks_gt (zip keys directory_names)).*1
            = (sort_by weeks_gt (zip keys directory_names)).*2) as Hfst.
    { by rewrite <-list_fmap_compose. }
    split.
    + split; [done|]. intros (n & Hin & Hnone). exfalso.
      assert (is_Some (mapM (_get_weeks clinic weeks) directory_names))
        as Hsome by eauto.
      apply mapM_is_Some in Hsome. rewrite Forall_forall in Hsome.
      destruct (Hsome n Hin) as [w Hw]. unfold _get_weeks in Hw. cbn in Hw.
      congruence.
    + intros items [= <-]. rewrite Hfst. split; [|split; [|split]].
      * by rewrite Hperm, Hn.
      * apply Forall_fmap. eapply Forall_impl; [exact Hk'|]. by intros [w n].
      * eapply StronglySorted_fmap;
          [|apply (sort_by_sorted weeks_gt weeks_gt_asym weeks_gt_not_trans)].
        intros [w n] [w' n']. cbn. apply weeks_gt_false.
      * intros w. rewrite <-Hn at 2.
        etrans; [exact (weeks_filter clinic weeks w _ Hk')|].
        rewrite (sort_by_stable weeks_gt weeks_gt_irrefl).
        symmetry. exact (weeks_filter clinic weeks w _ Hk).
  - assert (_display_directory_names clinic weeks directory_names = None)
      as Hnone.
    { unfold _display_directory_names. by rewrite E. }
    split; [|by rewrite Hnone].
    split; [|done]. intros _.
    destruct (decide (Forall (is_Some ∘ _get_weeks clinic weeks)
                             directory_names)) as [Hall|Hnot].
    + apply mapM_is_Some in Hall as [keys Hkeys]. congruence.
    + apply not_Forall_Exists in Hnot; [|apply _].
      apply Exists_exists in Hnot as (n & Hin & Hn). exists n. split; [done|].
      cbn in Hn. unfold _get_weeks in Hn.
      destruct (dict_get (joinpath clinic n) weeks); [|done].
      exfalso. apply Hn. eauto.
Qed.

Lemma display_is_Some (clinic : path) (weeks : dict path Qc)
    (names : list string) :
  Forall (fun n => is_Some (dict_get (joinpath clinic n) weeks)) names →
  is_Some (_display_directory_names clinic weeks names).
Proof.
  intros Hall.
  destruct (mapM_is_Some_2 (_get_weeks clinic weeks) names) as [keys Hkeys].
  { eapply Forall_impl; [exact Hall|]. by intros n. }
  rewrite (display_unfold clinic weeks names keys Hkeys). eauto.
Qed.

(** X7. On one snapshot of the file system: after discovery and the
    staleness computation of what it found, neither the listing of all
    directories by weeks (line 118) nor the listing of the directories
    selected for archiving (line 137), for any number of weeks to keep,
    raises [KeyError]. *)
Theorem listings_after_computation (fs : node) (clinic : path) (now : Qc)
    (s : app) :
  let patient_directories := find_patient_directories fs clinic in
  ∃ m s',
    _weeks_since_touched fs now patient_directories s = (Ok m, s')
    ∧ is_Some (_display_directory_names clinic m (name <$> patient_directories))
    ∧ ∀ weeks_to_keep,
        is_Some (_display_directory_names clinic m
                   (name <$> _determine_directories_to_archive m weeks_to_keep)).
Proof.
  intros ds.
  pose proof (find_patient_directories_has_data fs clinic) as Hall.
  destruct (weeks_since_touched_Ok fs now ds s Hall) as (s' & Hrun & _).
  exists (record_all fs now ds []), s'. split; [exact Hrun|].
  assert (∀ d, d ∈ ds →
               is_Some (dict_get (joinpath clinic (name d))
                                 (record_all fs now ds []))) as Hget.
  { intros d Hd. pose proof Hd as Hin.
    apply elem_of_find_patient_directories in Hin as (Hin & _).
    destruct (glob_star_joinpath fs clinic d Hin) as [k ->].
    rewrite name_joinpath, record_all_get, decide_True by done. eauto. }
  split.
  - apply display_is_Some, Forall_fmap, Forall_forall. intros d Hd.
    by apply Hget.
  - intros T. apply display_is_Some, Forall_fmap, Forall_forall. intros d Hd.
    apply Hget.
    pose proof (determine_sublist (record_all fs now ds []) T) as Hsub.
    pose proof (elem_of_sublist _ _ d Hd Hsub) as Hkey. clear Hd.
    pose proof Hkey as Hd.
    apply record_all_keys in Hd as [Hd|Hd]; [done|].
    by apply elem_of_nil in Hd.
Qed.

(** ** More on the selection *)

Lemma filter_sublist_impl {A} (P Q : A → Prop)
    `{∀ x, Decision (P x)} `{∀ x, Decision (Q x)} (l : list A) :
  (∀ x, P x → Q x) → sublist (filter P l) (filter Q l).
Proof.
  intros HPQ. induction l as [|x l IH]; [constructor|].
  rewrite !filter_cons. destruct (decide (P x)) as [HP|HP].
  - rewrite decide_True by auto. by constructor.
  - destruct (decide (Q x)); [by constructor | done].
Qed.

(** X8. Keeping more weeks never selects a directory that keeping fewer
    weeks does not select: the selection for the larger threshold is the
    selection for the smaller one with some directories left out. *)
Theorem selection_antitone (m : dict path Qc) (T1 T2 : Qc) :
  (T1 ≤ T2)%Qc →
  sublist (_determine_directories_to_archive m T2)
          (_determine_directories_to_archive m T1).
Proof.
  intros Hle. rewrite !determine_filter. apply fmap_sublist.
  apply filter_sublist_impl. intros [d w]. unfold stale. cbn.
  intros Hlt. by eapply Qcle_lt_trans.
Qed.

Lemma selection_antitone_witness :
  sublist (_determine_directories_to_archive sample_staleness (Qc_of_Z 60))
          (_determine_directories_to_archive sample_staleness (Qc_of_Z 52)).
Proof.
  apply (selection_antitone sample_staleness (Qc_of_Z 52) (Qc_of_Z 60)).
  apply (bool_decide_unpack _). vm_compute. exact I.
Defined.

(** X9. From the staleness computation to the selection: a directory of
    the input is selected for archiving exactly when every one of its
    gathered paths was modified more than [weeks_to_keep] weeks before
    [now]; a single younger item keeps the directory in place. *)
Theorem selected_iff_all_items_old (fs : node) (now : Qc) (ds : list path)
    (s s' : app) (m : dict path Qc) (weeks_to_keep : Qc) (d : path) :
  _weeks_since_touched fs now ds s = (Ok m, s') →
  d ∈ _determine_directories_to_archive m weeks_to_keep
  ↔ d ∈ ds
    ∧ ∀ p, p ∈ paths_to_check fs d →
           (weeks_to_keep
            < (now - modified_time fs p) / Qc_of_Z (7 * 86400))%Qc.
Proof.
  intros [-> Hall]%weeks_since_touched_inv.
  rewrite elem_of_determine by apply record_all_wf, dict_wf_nil.
  rewrite Forall_forall in Hall. split.
  - intros (w & Hget & Hlt). rewrite record_all_get in Hget.
    destruct (decide (d ∈ ds)) as [Hd|_]; [|done]. injection Hget as <-.
    split; [done|]. intros p Hp.
    destruct (minimum_has_data fs now d (Hall d Hd))
      as (v & _ & [_ Hmin] & Hst).
    rewrite Hst in Hlt. eapply Qclt_le_trans; [exact Hlt|]. apply Hmin.
    unfold weeks_since. apply list_elem_of_fmap. by exists p.
  - intros [Hd Hold].
    destruct (minimum_has_data fs now d (Hall d Hd)) as (v & _ & [Hv _] & Hst).
    exists v. split; [by rewrite record_all_get, decide_True, Hst|].
    unfold weeks_since in Hv. apply list_elem_of_fmap in Hv as (p & -> & Hp).
    by apply Hold.
Qed.

Lemma selected_iff_all_items_old_witness :
  dir_QT9 ∈ _determine_directories_to_archive
              [(dir_LK4_18, Qc_of_Z 60); (dir_QT9, Q2Qc (209 # 2))]
              (Qc_of_Z 100)
  ↔ dir_QT9 ∈ [dir_LK4_18; dir_QT9]
    ∧ ∀ p, p ∈ paths_to_check sample_fs dir_QT9 →
           (Qc_of_Z 100
            < (sample_now - modified_time sample_fs p) / Qc_of_Z (7 * 86400))%Qc.
Proof.
  destruct (_weeks_since_touched sample_fs sample_now [dir_LK4_18; dir_QT9]
              blank) as [r s'] eqn:Hrun.
  assert (r = Ok [(dir_LK4_18, Qc_of_Z 60); (dir_QT9, Q2Qc (209 # 2))]) as ->.
  { change r with (r, s').1. rewrite <-Hrun. qc_compute. }
  exact (selected_iff_all_items_old sample_fs sample_now
           [dir_LK4_18; dir_QT9] blank s' _ (Qc_of_Z 100) dir_QT9 Hrun).
Defined.

(** ** What the move section writes *)

Section MovePage.
Variables (fs : node) (holding destination : path).
Implicit Types (ds : list path) (s : app) (d t : path).

Lemma bind_Ok {A B} (m : M A) (k : A → M B) s (a : A) s' :
  m s = (Ok a, s') → bind m k s = k a s'.
Proof. unfold bind. by intros ->. Qed.

Lemma check_holding_spec (allow : bool) s :
  check_holding fs holding destination allow s
  = (Ok (allow && bool_decide (glob_star fs holding = [])),
     mkApp (status_indicator s) (progress_bar s)
       (page s ++ (if bool_decide (glob_star fs holding = []) then []
                   else [StWarning (HoldingNotEmpty holding destination)]))
       (moved s)).
Proof.
  unfold check_holding. destruct (glob_star fs holding) as [|q qs].
  - rewrite decide_False by (cbn [length]; lia).
    rewrite bool_decide_eq_true_2 by done.
    unfold ret. rewrite andb_true_r, app_nil_r. by destruct s.
  - rewrite decide_True by done. rewrite bool_decide_eq_false_2 by done.
    by rewrite andb_false_r.
Qed.

Lemma undergo_stage (allow undergo : bool) (plan : list (path * path)) s :
  (allow = true → plan = []) →
  ((if allow && undergo
    then for_each plan (fun '(from_dir, to_dir) => shutil_move from_dir to_dir)
    else ret tt) ;; ret allow)%M s
  = (Ok allow, s).
Proof.
  intros Hplan. destruct allow; [|done].
  rewrite Hplan by done. by destruct undergo.
Qed.

Lemma move_section_page undergo ds s :
  ∃ allow s',
    move_section fs holding destination undergo ds s = (Ok allow, s')
    ∧ page s'
      = page s
        ++ source_warnings fs ds
        ++ destination_warnings fs (final_location destination <$> ds)
        ++ [ StWrite (MovingPlan holding destination);
             StWrite (PlanToMove
                        ((fun d => (d, joinpath holding (name d))) <$> ds)) ]
        ++ (if bool_decide (glob_star fs holding = []) then []
            else [StWarning (HoldingNotEmpty holding destination)]).
Proof.
  unfold move_section.
  assert (map (joinpath destination) (map name ds)
          = final_location destination <$> ds) as ->.
  { by rewrite map_map. }
  assert (zip ds (map (joinpath holding) (map name ds))
          = (fun d => (d, joinpath holding (name d))) <$> ds) as ->.
  { rewrite map_map. apply (zip_fmap_r (fun d => joinpath holding (name d))). }
  rewrite (bind_Ok _ _ _ _ _ (check_sources_spec fs ds true s)).
  rewrite (bind_Ok _ _ _ _ _ (check_final_locations_spec fs _ _ _)).
  rewrite (bind_Ok (st_write _) _ _ tt _ eq_refl).
  rewrite (bind_Ok (st_write _) _ _ tt _ eq_refl).
  rewrite (bind_Ok _ _ _ _ _ (check_holding_spec _ _)).
  rewrite undergo_stage.
  - eexists _, _. split; [reflexivity|].
    cbn [status_indicator progress_bar page moved].
    by rewrite <-!app_assoc.
  - cbn [andb]. intros [[Hds _]%andb_prop _]%andb_prop.
    apply bool_decide_eq_true_1 in Hds. by rewrite Hds.
Qed.

Lemma elem_of_source_warnings ds d :
  StWarning (DoesNotExistAnymore d) ∈ source_warnings fs ds
  ↔ d ∈ ds ∧ exists_ fs d = false.
Proof.
  unfold source_warnings. rewrite list_elem_of_fmap. split.
  - intros (d' & [= ->] & [He Hd]%list_elem_of_filter). done.
  - intros [Hd He]. exists d. split; [done|]. by apply list_elem_of_filter.
Qed.

Lemma elem_of_destination_warnings (ts : list path) t :
  StWarning (FinalDestinationExists t) ∈ destination_warnings fs ts
  ↔ t ∈ ts ∧ exists_ fs t = true.
Proof.
  unfold destination_warnings. rewrite list_elem_of_fmap. split.
  - intros (t' & [= ->] & [He Ht]%list_elem_of_filter). done.
  - intros [Ht He]. exists t. split; [done|]. by apply list_elem_of_filter.
Qed.

Lemma source_warnings_kind ds (e : element) :
  e ∈ source_warnings fs ds → ∃ d, e = StWarning (DoesNotExistAnymore d).
Proof. unfold source_warnings. intros (d & -> & _)%list_elem_of_fmap. eauto. Qed.

Lemma destination_warnings_kind (ts : list path) (e : element) :
  e ∈ destination_warnings fs ts →
  ∃ t, e = StWarning (FinalDestinationExists t).
Proof.
  unfold destination_warnings. intros (t & -> & _)%list_elem_of_fmap. eauto.
Qed.
End MovePage.

(** X10. Whatever the state of the buttons, the move section adds to the
    page: a "does not exist anymore" warning exactly for the selected
    directories that are missing, a "final destination already exists"
    warning exactly for the locations [destination/name] that exist, the
    "holding is not empty" warning exactly when the holding directory has an
    entry, and one moving plan, which pairs every selected directory, in
    order, with [holding/name]. *)
Theorem move_section_writes (fs : node) (holding destination : path)
    (undergo : bool) (ds : list path) (s : app) :
  ∃ allow s' out,
    move_section fs holding destination undergo ds s = (Ok allow, s')
    ∧ page s' = page s ++ out
    ∧ (∀ d, StWarning (DoesNotExistAnymore d) ∈ out
            ↔ d ∈ ds ∧ exists_ fs d = false)
    ∧ (∀ t, StWarning (FinalDestinationExists t) ∈ out
            ↔ ∃ d, d ∈ ds ∧ t = final_location destination d
                   ∧ exists_ fs t = true)
    ∧ (StWarning (HoldingNotEmpty holding destination) ∈ out
       ↔ glob_star fs holding ≠ [])
    ∧ (∀ plan, StWrite (PlanToMove plan) ∈ out
               ↔ plan = (fun d => (d, joinpath holding (name d))) <$> ds).
Proof.
  destruct (move_section_page fs holding destination undergo ds s)
    as (allow & s' & Hrun & Hpage).
  eexists allow, s', _. split; [exact Hrun|]. split; [exact Hpage|].
  set (hw := if bool_decide (glob_star fs holding = []) then []
             else [StWarning (HoldingNotEmpty holding destination)]).
  assert (∀ e, e ∈ hw ↔ e = StWarning (HoldingNotEmpty holding destination)
                        ∧ glob_star fs holding ≠ []) as Hhw.
  { intros e. unfold hw. destruct (decide (glob_star fs holding = [])) as [E|E].
    - rewrite bool_decide_eq_true_2 by done. rewrite elem_of_nil. naive_solver.
    - rewrite bool_decide_eq_false_2 by done.
      rewrite list_elem_of_singleton. naive_solver. }
  split; [|split; [|split]].
  - intros d. rewrite !elem_of_app, elem_of_source_warnings, Hhw,
      !elem_of_cons, elem_of_nil.
    split; [|by left].
    intros [?|[(t & He)%destination_warnings_kind|[[He|[He|[]]]|[He _]]]];
      done.
  - intros t. rewrite !elem_of_app, elem_of_destination_warnings, Hhw,
      !elem_of_cons, elem_of_nil, list_elem_of_fmap.
    split.
    + intros [(d & He)%source_warnings_kind
             |[[(d & -> & Hd) Ht]|[[He|[He|[]]]|[He _]]]]; try done.
      by exists d.
    + intros (d & Hd & -> & Ht). right. left. split; [|done]. by exists d.
  - rewrite !elem_of_app, Hhw, !elem_of_cons, elem_of_nil. split.
    + intros [(d & He)%source_warnings_kind
             |[(t & He)%destination_warnings_kind
              |[[He|[He|[]]]|[_ Hne]]]]; done.
    + intros Hne. right. right. by right.
  - intros plan. rewrite !elem_of_app, Hhw, !elem_of_cons, elem_of_nil. split.
    + intros [(d & He)%source_warnings_kind
             |[(t & He)%destination_warnings_kind
              |[[He|[He|[]]]|[He _]]]]; try done.
      by injection He.
    + intros ->. right. right. left. right. by left.
Qed.

(** X11. On one snapshot of the file system, for the directories found by
    discovery and any number of weeks to keep: no directory is selected
    twice, and the selected directories have pairwise different targets in
    the holding directory and pairwise different final locations, so no two
    moves of a batch aim at one place. *)
Theorem moving_plan_targets_distinct (fs : node) (clinic holding destination : path)
    (now : Qc) (s : app) :
  ∃ m s',
    _weeks_since_touched fs now (find_patient_directories fs clinic) s
    = (Ok m, s')
    ∧ ∀ weeks_to_keep,
        let selected := _determine_directories_to_archive m weeks_to_keep in
        NoDup selected
        ∧ NoDup (joinpath holding <$> (name <$> selected))
        ∧ NoDup (joinpath destination <$> (name <$> selected)).
Proof.
  set (ds := find_patient_directories fs clinic).
  pose proof (find_patient_directories_has_data fs clinic) as Hall.
  destruct (weeks_since_touched_Ok fs now ds s Hall) as (s' & Hrun & _).
  exists (record_all fs now ds []), s'. split; [exact Hrun|].
  intros T selected.
  assert (NoDup selected) as Hnd.
  { eapply sublist_NoDup; [|apply determine_sublist].
    apply (record_all_wf fs now ds []), dict_wf_nil. }
  assert (∀ d, d ∈ selected → d = joinpath clinic (name d)) as Hchild.
  { intros d Hd.
    pose proof (determine_sublist (record_all fs now ds []) T) as Hsub.
    apply (elem_of_sublist _ _ d Hd) in Hsub.
    apply record_all_keys in Hsub as [Hin|Hin];
      [|by apply elem_of_nil in Hin].
    apply elem_of_find_patient_directories in Hin as (Hin & _).
    destruct (glob_star_joinpath fs clinic d Hin) as [k ->].
    by rewrite name_joinpath. }
  assert (∀ root, NoDup (joinpath root <$> (name <$> selected))) as Hroot.
  { intros root. rewrite <-list_fmap_compose.
    apply NoDup_fmap_2_strong; [|done].
    intros d1 d2 Hd1 Hd2 Heq. cbn in Heq. unfold joinpath in Heq.
    apply app_inj_tail in Heq as [_ Hname].
    rewrite (Hchild d1 Hd1), (Hchild d2 Hd2). by rewrite Hname. }
  split; [done|]. split; apply Hroot.
Qed.

(** ** The widgets of the staleness computation *)

Section Widgets.
Variables (fs : node) (now : Qc).
Implicit Types (d : path) (ds : list path) (acc : dict path Qc) (s : app).

Lemma Qc_of_Z_pos_ne (z : Z) : (0 < z)%Z → Qc_of_Z z ≠ 0%Qc.
Proof.
  intros Hz%Qc_of_Z_lt Heq. rewrite Heq in Hz.
  apply Qclt_not_eq in Hz. apply Hz. by apply Qc_is_canon.
Qed.

Lemma fraction_all (i : nat) : fraction i (S i) = 1%Qc.
Proof.
  unfold fraction. rewrite Nat2Z.inj_succ. unfold Z.succ, Qcdiv.
  apply Qcmult_inv_r, Qc_of_Z_pos_ne. lia.
Qed.

Lemma fraction_done (j n : nat) :
  fraction j n = (Qc_of_Z (Z.of_nat (S j)) / Qc_of_Z (Z.of_nat n))%Qc.
Proof. unfold fraction. by rewrite Nat2Z.inj_succ. Qed.

Lemma weeks_loop_finishes n ds : ∀ i acc s,
  (i + length ds = n)%nat → Forall (has_data fs) ds → ds ≠ [] →
  weeks_loop fs now n i ds acc s
  = (Ok (record_all fs now ds acc),
     mkApp (Some (name (List.last ds []))) (Some 1%Qc) (page s) (moved s)).
Proof.
  induction ds as [|d ds IH]; intros i acc s Hn Hall Hne; [done|].
  apply Forall_cons in Hall as [Hd Hall]. cbn [length] in Hn.
  destruct (minimum_has_data fs now d Hd) as (v & Hv & _ & Hst).
  rewrite (weeks_loop_cons_ok fs now n i d ds acc s v) by (done || lia).
  unfold record_all. cbn [foldl]. rewrite Hst.
  destruct ds as [|d' ds].
  - cbn [weeks_loop foldl List.last]. unfold ret.
    cbn [length] in Hn. replace n with (S i) by lia. by rewrite fraction_all.
  - rewrite IH by (done || (cbn [length] in *; lia)). done.
Qed.

Lemma weeks_loop_stops n ds1 d ds2 : ∀ i acc s,
  (i + length (ds1 ++ d :: ds2) ≤ n)%nat →
  Forall (has_data fs) ds1 → paths_to_check fs d = [] →
  weeks_loop fs now n i (ds1 ++ d :: ds2) acc s
  = (Raise zero_size,
     mkApp (Some (name d))
           (match ds1 with
            | [] => progress_bar s
            | _ :: _ => Some (fraction (i + length ds1 - 1) n)
            end)
           (page s) (moved s)).
Proof.
  induction ds1 as [|d1 ds1 IH]; intros i acc s Hn Hall Hd.
  - by apply weeks_loop_cons_raise, minimum_no_data.
  - apply Forall_cons in Hall as [Hd1 Hall].
    rewrite length_app in Hn. cbn [length] in Hn.
    destruct (minimum_has_data fs now d1 Hd1) as (v & Hv & _ & _).
    cbn [List.app].
    rewrite (weeks_loop_cons_ok fs now n i d1 _ acc s v) by (done || lia).
    rewrite IH; [|rewrite length_app; cbn [length]; lia|done..].
    cbn [progress_bar page moved length]. do 2 f_equal.
    destruct ds1 as [|d2 ds1]; cbn [length]; do 2 f_equal; lia.
Qed.
End Widgets.

(** X12. When every directory of an input that is not empty has gathered
    paths, the computation ends with the progress bar at 1 and the status
    line on the name of the last directory; for the empty input it returns
    the empty mapping with the progress bar at 0. *)
Theorem weeks_since_touched_finishes (fs : node) (now : Qc) (ds : list path)
    (s : app) :
  Forall (has_data fs) ds →
  ∃ m s', _weeks_since_touched fs now ds s = (Ok m, s')
          ∧ (ds ≠ [] → progress_bar s' = Some 1%Qc
                       ∧ status_indicator s' = Some (name (List.last ds [])))
          ∧ (ds = [] → m = [] ∧ progress_bar s' = Some 0%Qc
                       ∧ status_indicator s' = None).
Proof.
  intros Hall. unfold _weeks_since_touched.
  rewrite (bind_Ok new_widgets _ s tt _ eq_refl).
  destruct ds as [|d ds].
  - eexists _, _. split; [reflexivity|]. split; [done|]. done.
  - rewrite weeks_loop_finishes by done.
    eexists _, _. split; [reflexivity|]. split; [done|]. done.
Qed.

Lemma weeks_since_touched_finishes_witness :
  ∃ m s', _weeks_since_touched sample_fs sample_now [dir_LK4_18; dir_QT9] blank
          = (Ok m, s')
          ∧ progress_bar s' = Some 1%Qc
          ∧ status_indicator s' = Some "000004~QT9".
Proof.
  destruct (weeks_since_touched_finishes sample_fs sample_now
              [dir_LK4_18; dir_QT9] blank) as (m & s' & Hrun & Hne & _).
  - apply (bool_decide_unpack _). vm_compute. exact I.
  - exists m, s'. split; [exact Hrun|]. by apply Hne.
Defined.

(** X13. When the first directory without gathered paths comes after [k]
    directories that have some, the computation raises the [ValueError] of
    [np.min] with the status line on the name of that directory and the
    progress bar at [k] out of the number of directories; nothing of the
    directories done so far is returned. *)
Theorem weeks_since_touched_stops (fs : node) (now : Qc)
    (ds1 : list path) (d : path) (ds2 : list path) (s : app) :
  Forall (has_data fs) ds1 → paths_to_check fs d = [] →
  ∃ s', _weeks_since_touched fs now (ds1 ++ d :: ds2) s = (Raise zero_size, s')
        ∧ status_indicator s' = Some (name d)
        ∧ progress_bar s'
          = Some (Qc_of_Z (Z.of_nat (length ds1))
                  / Qc_of_Z (Z.of_nat (length (ds1 ++ d :: ds2))))%Qc
        ∧ page s' = page s ∧ moved s' = moved s.
Proof.
  intros Hall Hd. unfold _weeks_since_touched.
  rewrite (bind_Ok new_widgets _ s tt _ eq_refl).
  rewrite weeks_loop_stops by (done || lia).
  eexists. split; [reflexivity|]. cbn [status_indicator progress_bar page moved].
  split; [done|]. split; [|done].
  destruct ds1 as [|d1 ds1]; f_equal.
  - apply Qc_is_canon. rewrite Qcdiv_this. cbn [length Z.of_nat this Qc_of_Z].
    unfold Qdiv. by rewrite Qmult_0_l.
  - rewrite fraction_done. do 3 f_equal. cbn [length]. lia.
Qed.

Lemma weeks_since_touched_stops_witness :
  ∃ s', _weeks_since_touched sample_fs sample_now
          ([dir_LK4_17] ++ dir_AB1 :: [dir_QT9]) blank = (Raise zero_size, s')
        ∧ status_indicator s' = Some "000031~AB1"
        ∧ progress_bar s' = Some (Qc_of_Z 1 / Qc_of_Z 3)%Qc.
Proof.
  destruct (weeks_since_touched_stops sample_fs sample_now
              [dir_LK4_17] dir_AB1 [dir_QT9] blank)
    as (s' & Hrun & Hst & Hpr & _).
  - apply (bool_decide_unpack _). vm_compute. exact I.
  - reflexivity.
  - exists s'. split; [exact Hrun|]. split; [exact Hst | exact Hpr].
Defined.

Lemma weeks_loop_frame (fs : node) (now : Qc) (n : nat) (ds : list path) :
  ∀ i acc s,
    page (weeks_loop fs now n i ds acc s).2 = page s
    ∧ moved (weeks_loop fs now n i ds acc s).2 = moved s.
Proof.
  induction ds as [|d ds IH]; intros i acc s; [done|].
  cbn [weeks_loop]. unfold bind at 1, status_write.
  unfold bind at 1, lift.
  destruct (minimum_number_of_weeks_ago fs now d) as [v|e]; [|done].
  unfold bind at 1, progress. cbn [status_indicator progress_bar page moved].
  destruct (decide _); [|done].
  destruct (IH (S i) (dict_set acc d v)
               (mkApp (Some (name d)) (Some (fraction i n)) (page s) (moved s)))
    as [Hp Hm].
  cbn [page moved] in Hp, Hm. done.
Qed.

(** X14. Whether it returns a mapping or raises, whatever the exception,
    the staleness computation writes no text, warning, error or success
    notice on the page and calls no [shutil.move]: only its status line and
    its progress bar change. *)
Theorem weeks_since_touched_effects (fs : node) (now : Qc) (ds : list path)
    (s : app) :
  page (_weeks_since_touched fs now ds s).2 = page s
  ∧ moved (_weeks_since_touched fs now ds s).2 = moved s.
Proof.
  unfold _weeks_since_touched.
  rewrite (bind_Ok new_widgets _ s tt _ eq_refl).
  destruct (weeks_loop_frame fs now (length ds) ds 0%nat []
              (mkApp None (Some 0%Qc) (page s) (moved s))) as [Hp Hm].
  cbn [page moved] in Hp, Hm. done.
Qed.

(** ** The sites of the configuration *)

Section Sites.
Implicit Types (sc : toml) (scs : list toml) (k : site_name)
  (acc m : dict site_name directories).

Lemma add_site_well_shaped acc sc k :
  well_shaped sc → site_name_of sc = Some k →
  add_site acc sc
  = Returns (match complete sc with
             | Some dirs => dict_set acc k dirs
             | None => acc
             end).
Proof.
  intros [_ Hmonaco] Hname. destruct sc as [| |entries|]; try done.
  unfold add_site, monaco_directories, monaco_entry, complete.
  cbn [index site_name_of] in *.
  destruct (dict_get "name" entries) as [[s|z| |]|] eqn:En; try done;
    injection Hname as <-;
    (destruct (dict_get "monaco" entries) as [[| |monaco|]|]; try done;
     cbn [index];
     destruct (dict_get "focaldata" monaco); [|done];
     destruct (dict_get "clinic" monaco); [|done];
     destruct (dict_get "archive_holding" monaco); [|done];
     destruct (dict_get "archive_destination" monaco); done).
Qed.

Lemma site_loop_well_shaped scs : ∀ acc,
  Forall well_shaped scs →
  ∃ m, site_loop scs acc = Returns m
       ∧ (dict_wf acc → dict_wf m)
       ∧ (∀ k dirs, dict_get k m = Some dirs →
            (∃ sc, sc ∈ scs ∧ site_name_of sc = Some k
                   ∧ complete sc = Some dirs)
            ∨ dict_get k acc = Some dirs)
       ∧ (∀ k, (∃ sc, sc ∈ scs ∧ site_name_of sc = Some k
                      ∧ is_Some (complete sc))
               ∨ is_Some (dict_get k acc) →
               is_Some (dict_get k m)).
Proof.
  induction scs as [|sc scs IH]; intros acc Hall.
  - exists acc. split; [done|]. split; [done|]. split; [by right|].
    intros k [(sc & Hin & _)|Hacc]; [by apply elem_of_nil in Hin | done].
  - apply Forall_cons in Hall as [Hsc Hall].
    destruct Hsc as [[k0 Hk0] Hshape].
    cbn [site_loop].
    rewrite (add_site_well_shaped acc sc k0 (conj (ex_intro _ k0 Hk0) Hshape) Hk0).
    set (acc' := match complete sc with
                 | Some dirs => dict_set acc k0 dirs
                 | None => acc
                 end).
    destruct (IH acc' Hall) as (m & Hrun & Hwf & Hfrom & Hto).
    exists m. split; [done|]. split; [|split].
    + intros Hacc. apply Hwf. unfold acc'.
      destruct (complete sc); [by apply dict_wf_set | done].
    + intros k dirs Hget.
      destruct (Hfrom k dirs Hget) as [(sc' & Hin & Hn & Hc)|Hacc'].
      * left. exists sc'. split; [by right | done].
      * unfold acc' in Hacc'. destruct (complete sc) as [dirs0|] eqn:Ec;
          [|by right].
        rewrite dict_get_set in Hacc'.
        destruct (decide (k0 = k)) as [<-|Hne]; [|by right].
        injection Hacc' as <-. left. exists sc. split; [left | done].
    + intros k [(sc' & [->|Hin]%elem_of_cons & Hn & Hc)|Hacc].
      * apply Hto. right. unfold acc'. destruct Hc as [dirs ->].
        rewrite dict_get_set, decide_True by congruence. eauto.
      * apply Hto. left. by exists sc'.
      * apply Hto. right. unfold acc'. destruct (complete sc); [|done].
        rewrite dict_get_set. case_decide; eauto.
Qed.

Lemma site_loop_app scs1 scs2 : ∀ acc m,
  site_loop scs1 acc = Returns m →
  site_loop (scs1 ++ scs2) acc = site_loop scs2 m.
Proof.
  induction scs1 as [|sc scs1 IH]; intros acc m; cbn [site_loop List.app].
  - by intros [= ->].
  - destruct (add_site acc sc); [apply IH | done].
Qed.
End Sites.

(** X15. For sites of the expected shape (a table with a string or integer
    name whose ["monaco"] entry, if any, is a table) the site map is built
    without an exception: a site without ["monaco"] or without one of its
    four directories is left out, and a name is a key of the map exactly
    when a site of that name has all four, the map holding the four
    directories of such a site. *)
Theorem site_directory_map_spec (site_configs : list toml) :
  Forall well_shaped site_configs →
  ∃ m, site_directory_map site_configs = Returns m
       ∧ dict_wf m
       ∧ (∀ k, is_Some (dict_get k m)
               ↔ ∃ sc, sc ∈ site_configs ∧ site_name_of sc = Some k
                       ∧ is_Some (complete sc))
       ∧ (∀ k dirs, dict_get k m = Some dirs →
            ∃ sc, sc ∈ site_configs ∧ site_name_of sc = Some k
                  ∧ complete sc = Some dirs).
Proof.
  intros Hall.
  destruct (site_loop_well_shaped site_configs [] Hall)
    as (m & Hrun & Hwf & Hfrom & Hto).
  exists m. split; [done|]. split; [apply Hwf, dict_wf_nil|]. split.
  - intros k. split.
    + intros [dirs Hget].
      destruct (Hfrom k dirs Hget) as [(sc & Hin & Hn & Hc)|Hnil]; [|done].
      exists sc. rewrite Hc. eauto.
    + intros Hsc. apply Hto. by left.
  - intros k dirs Hget.
    by destruct (Hfrom k dirs Hget) as [?|Hnil].
Qed.

Lemma site_directory_map_spec_witness :
  ∃ m, site_directory_map sample_sites = Returns m
       ∧ is_Some (dict_get (NameString "rccc") m)
       ∧ dict_get (NameString "nbcc") m = None
       ∧ dict_get (NameString "sash") m = None.
Proof.
  destruct (site_directory_map_spec sample_sites) as (m & Hrun & _ & _ & _).
  - repeat constructor; by eexists.
  - exists m. split; [exact Hrun|].
    assert (Returns m = site_directory_map sample_sites) as Hm by done.
    vm_compute in Hm. injection Hm as ->. split; [by eexists | done].
Defined.

(** X16. A site table without ["name"] makes the construction of the site
    map raise [KeyError], whether or not it has a ["monaco"] section: the
    name is read before the [try]. *)
Theorem site_without_name_raises (scs1 : list toml)
    (entries : list (string * toml)) (scs2 : list toml) :
  Forall well_shaped scs1 →
  dict_get "name" entries = None →
  site_directory_map (scs1 ++ TTable entries :: scs2) = Raises KeyError.
Proof.
  intros Hall Hname. unfold site_directory_map.
  destruct (site_loop_well_shaped scs1 [] Hall) as (m & Hrun & _).
  rewrite (site_loop_app scs1 _ [] m Hrun). cbn [site_loop].
  unfold add_site. cbn [index]. by rewrite Hname.
Qed.

Lemma site_without_name_raises_witness :
  site_directory_map
    (sample_sites ++ TTable [("monaco", TTable [])] :: [])
  = Raises KeyError.
Proof.
  apply (site_without_name_raises sample_sites [("monaco", TTable [])] []).
  - repeat constructor; by eexists.
  - reflexivity.
Defined.

(** X17. Discovery does not secure the format the sort key needs: the
    listing of the directories it found raises [ValueError] exactly when one
    of them has two or more [~] in its name. *)
Theorem listing_of_discovered_raises (fs : node) (clinic : path) :
  (∃ e, id_sorted_directory_names
          (name <$> find_patient_directories fs clinic) = Raise e)
  ↔ ∃ d, d ∈ find_patient_directories fs clinic
         ∧ (2 ≤ count tilde (name d))%nat.
Proof.
  unfold id_sorted_directory_names. split.
  - intros [e He].
    destruct (traverse _ (name <$> _)) as [keys|e'] eqn:E; [done|].
    destruct (proj1 (traverse_Raise_iff _patient_directory_sort_key
                       (name <$> find_patient_directories fs clinic)))
      as (n & e'' & Hn & Hr); [eauto|].
    apply list_elem_of_fmap in Hn as (d & -> & Hd). exists d. split; [done|].
    pose proof Hd as (_ & _ & Hone & _)%elem_of_find_patient_directories.
    destruct (decide (count tilde (name d) = 1%nat)) as [Hc|Hc]; [|lia].
    apply sort_key_ok_iff in Hc as [k Hk]. congruence.
  - intros (d & Hd & Hc).
    destruct (proj2 (traverse_Raise_iff _patient_directory_sort_key
                       (name <$> find_patient_directories fs clinic)))
      as [e He].
    + destruct (sort_key_total (name d)) as [[k Hk]|[msg Hmsg]].
      * assert (count tilde (name d) = 1%nat) by (apply sort_key_ok_iff; eauto).
        lia.
      * exists (name d), (ValueError msg). split; [|done].
        apply list_elem_of_fmap. by exists d.
    + rewrite He. eauto.
Qed.
